(** * Image-Dataset-Augmentor: the operations of [Operation.h]

    A shallow embedding of the probabilistic image operations of
    [src/Operation.h] (namespace [augmentorLib]) and the properties the
    specification states about them.

    Conventions of the embedding.
    - C++ integers are [Z] with the wrap-around of their width written out
      ([u64] for [size_t] and [unsigned long], [s64] for [long], [s32] for
      [int], [u8] for [uint8_t]).
    - [double] values are rationals ([Q]); sums and products of doubles are
      the exact rational ones, comparisons and truncations are exact.
    - A call that may throw, or that reaches behaviour C++ leaves undefined,
      yields an [outcome]; loops are [for_] over an explicit loop state.
    - The engine of a [UniformDistributionGenerator] is the standard
      library's; a generator is the sequence of values its seeded engine and
      distribution produce, together with the number of values drawn. *)

From Stdlib Require Import ZArith List Bool String Lia QArith Qround Lqa.
Import ListNotations.
Open Scope Z_scope.

(** ** Machine integers *)

Definition u64 (z : Z) : Z := z mod 2 ^ 64.
Definition u8 (z : Z) : Z := z mod 2 ^ 8.
Definition s64 (z : Z) : Z := (z + 2 ^ 63) mod 2 ^ 64 - 2 ^ 63.
Definition s32 (z : Z) : Z := (z + 2 ^ 31) mod 2 ^ 32 - 2 ^ 31.

(** Conversion of a [double] to an integer type truncates toward zero. *)
Definition Qtrunc (q : Q) : Z := Z.quot (Qnum q) (Zpos (Qden q)).

(** [round] of <cmath>: nearest integer, halfway cases away from zero. *)
Definition Qround_away (q : Q) : Z :=
  if Qle_bool 0 q then Qfloor (q + (1 # 2)) else Qceiling (q - (1 # 2)).

(** ** Outcomes of a call *)

Inductive exception : Type :=
| out_of_range (what : string).

Inductive undefined_behaviour : Type :=
| out_of_bounds_access
| division_by_zero.

Inductive outcome (A : Type) : Type :=
| Returns (a : A)
| Throws (e : exception)
| Undefined (u : undefined_behaviour).

Arguments Returns {A} a.
Arguments Throws {A} e.
Arguments Undefined {A} u.

Definition bind {A B : Type} (m : outcome A) (k : A -> outcome B) : outcome B :=
  match m with
  | Returns a => k a
  | Throws e => Throws e
  | Undefined u => Undefined u
  end.

Notation "x <- m ;; k" := (bind m (fun x => k))
  (at level 61, m at next level, right associativity).
Notation "' p <- m ;; k" := (bind m (fun x => let 'p := x in k))
  (at level 61, p pattern, m at next level, right associativity).

(** [for (i = lo; i < hi; ++i) body], the loop state passed explicitly.
    The loop runs [hi - lo] times, and not at all when [hi <= lo]. *)
Fixpoint iterate {St : Type} (n : nat) (i : Z)
    (body : Z -> St -> outcome St) (s : St) : outcome St :=
  match n with
  | O => Returns s
  | S n' => s' <- body i s ;; iterate n' (i + 1) body s'
  end.

Definition for_ {St : Type} (lo hi : Z)
    (body : Z -> St -> outcome St) (s : St) : outcome St :=
  iterate (Z.to_nat (hi - lo)) lo body s.

(** ** The image buffer *)

Definition pixel : Type := list Z.

(** Modelled from the spec: the [Image] class is an external collaborator
    (section 6 of the specification); only its interface is known: width,
    height, pixel size, colour-space tag, pixels read and written by
    coordinate, the two constructors, and an in-place resize.  Coordinates
    are valid in [0,width) x [0,height); an access outside is undefined. *)
Record Image : Type := mkImage {
  getWidth : Z;
  getHeight : Z;
  getPixelSize : Z;
  getColorSpace : Z;
  pixelAt : Z -> Z -> pixel
}.

Definition in_bounds (img : Image) (x y : Z) : bool :=
  (0 <=? x) && (x <? getWidth img) && (0 <=? y) && (y <? getHeight img).

Definition getPixel (img : Image) (x y : Z) : outcome pixel :=
  if in_bounds img x y then Returns (pixelAt img x y)
  else Undefined out_of_bounds_access.

Definition setPixel (img : Image) (x y : Z) (p : pixel) : outcome Image :=
  if in_bounds img x y then
    Returns (mkImage (getWidth img) (getHeight img) (getPixelSize img)
               (getColorSpace img)
               (fun x' y' => if (x' =? x) && (y' =? y) then p
                             else pixelAt img x' y'))
  else Undefined out_of_bounds_access.

(** ** Random number generation *)

(** [UniformDistributionGenerator<DataType>]: [values n] is the [n]-th value
    the seeded engine yields through the distribution, [drawn] counts the
    calls of [operator()] so far. *)
Record UniformDistributionGenerator (DataType : Type) : Type := mkGenerator {
  values : nat -> DataType;
  drawn : nat
}.

Arguments mkGenerator {DataType} values drawn.
Arguments values {DataType} u n.
Arguments drawn {DataType} u.

(** [operator()] *)
Definition draw {DataType : Type} (g : UniformDistributionGenerator DataType)
  : DataType * UniformDistributionGenerator DataType :=
  (values g (drawn g), mkGenerator (values g) (S (drawn g))).

(** ** What the surrounding libraries provide

    Modelled from the spec: the parts of the collaborators that
    [Operation.h] uses and that are not in the file: the defaults of the
    two-argument [Image] constructor, the value of a pixel nobody has set,
    the resampling done by [Image::resize]; [cos] and [sin] of <cmath>; and
    the generator an operation gets when it is built with [NULL_SEED] (a
    seed taken from the clock). *)
Record Environment : Type := mkEnvironment {
  default_pixel_size : Z;
  default_color_space : Z;
  unset_pixel : Z -> pixel;
  resample : Image -> Z -> Z -> Z -> Z -> pixel;
  libm_cos : Q -> Q;
  libm_sin : Q -> Q;
  clock_generator : UniformDistributionGenerator Q
}.

(** ** The operation base class *)

Definition LOWER_BOUND_PROB : Q := 0%Q.
Definition UPPER_BOUND_PROB : Q := 1%Q.
Definition PI : Q := (314159 # 100000)%Q.
Definition HORIZONTAL : string := "Horizontal".
Definition VERTICAL : string := "Vertical".

Record Operation : Type := mkOperation {
  probability : Q;
  generator : UniformDistributionGenerator Q
}.

(** [operate_this_time]: [generator() <= probability] *)
Definition operate_this_time (o : Operation) : bool * Operation :=
  let (u, g) := draw (generator o) in
  (Qle_bool u (probability o), mkOperation (probability o) g).

(** [uniform_random_number()] *)
Definition uniform_random_number (o : Operation) : Q * Operation :=
  let (u, g) := draw (generator o) in
  (u, mkOperation (probability o) g).

(** [uniform_random_number(lower, upper)] *)
Definition uniform_random_number_between (o : Operation) (lower upper : Q)
  : Q * Operation :=
  let (u, g) := draw (generator o) in
  (((upper - lower) * u + lower)%Q, mkOperation (probability o) g).

(** [perform] returns a pointer: the one it was given, or [nullptr]. *)
Inductive pointer : Type :=
| nullptr
| image_ptr.

(** What a call of [perform] returns: the pointer, and the image the
    caller's pointer designates after the call. *)
Definition performed : Type := outcome (pointer * Image).

Record image_size : Type := mkSize {
  height : Z;
  width : Z
}.

Section Operations.

Variable E : Environment.

(** [Image(width, height, pixelSize, colorSpace)] and [Image(width, height)] *)
Definition Image4 (w h ps cs : Z) : Image :=
  mkImage w h ps cs (fun _ _ => unset_pixel E ps).

Definition Image2 (w h : Z) : Image :=
  Image4 w h (default_pixel_size E) (default_color_space E).

(** [image->resize(newHeight, newWidth)] *)
Definition resize (img : Image) (newHeight newWidth : Z) : Image :=
  mkImage newWidth newHeight (getPixelSize img) (getColorSpace img)
    (resample E img newHeight newWidth).

(** ** StdoutOperation *)

Record StdoutOperation : Type := mkStdout {
  stdout_base : Operation;
  str : string
}.

Definition StdoutOperation_perform (op : StdoutOperation) (image : Image)
  : StdoutOperation * performed :=
  let (fire, base) := operate_this_time (stdout_base op) in
  let op' := mkStdout base (str op) in
  if negb fire then (op', Returns (nullptr, image))
  else (op', Returns (image_ptr, image)).

(** ** ResizeOperation *)

Record ResizeOperation : Type := mkResize {
  resize_base : Operation;
  resize_lower : image_size;
  resize_upper : image_size
}.

Definition ResizeOperation_perform (op : ResizeOperation) (image : Image)
  : ResizeOperation * performed :=
  let (fire, base) := operate_this_time (resize_base op) in
  if negb fire then
    (mkResize base (resize_lower op) (resize_upper op),
     Returns (image_ptr, image))
  else
    let (factor, base) := uniform_random_number base in
    let lower := resize_lower op in
    let upper := resize_upper op in
    let h := s32 (Qtrunc (inject_Z (u64 (height upper - height lower)) * factor
                          + inject_Z (height lower))) in
    let w := s32 (Qtrunc (inject_Z (u64 (width upper - width lower)) * factor
                          + inject_Z (width lower))) in
    (mkResize base lower upper, Returns (image_ptr, resize image h w)).

(** ** CropOperation *)

Record CropOperation : Type := mkCrop {
  crop_base : Operation;
  crop_size : image_size;
  center : bool
}.

(** The two nested copy loops of the centred branch; the loop state is the
    temporary image with the destination counters [i1] and [j1]. *)
Definition crop_copy (image temp : Image) (size : image_size)
    (left_offset down_offset : Z) : outcome Image :=
  ' (temp, _) <-
    for_ left_offset (u64 (left_offset + width size))
      (fun i '(temp, i1) =>
         ' (temp, _) <-
           for_ down_offset (u64 (down_offset + height size))
             (fun j '(temp, j1) =>
                p <- getPixel image i j ;;
                temp <- setPixel temp i1 j1 p ;;
                Returns (temp, u64 (j1 + 1)))
             (temp, 0) ;;
         Returns (temp, u64 (i1 + 1)))
      (temp, 0) ;;
  Returns temp.

Definition CropOperation_perform (op : CropOperation) (image : Image)
  : CropOperation * performed :=
  let (fire, base) := operate_this_time (crop_base op) in
  let op' := mkCrop base (crop_size op) (center op) in
  if negb fire then (op', Returns (image_ptr, image))
  else
    let w := s32 (getWidth image) in
    let h := s32 (getHeight image) in
    let size := crop_size op in
    let temp := Image2 (width size) (height size) in
    if center op then
      let x := Z.quot w 2 in
      let y := Z.quot h 2 in
      let left_offset := u64 (u64 x - width size / 2) in
      let down_offset := u64 (u64 y - height size / 2) in
      (op', temp <- crop_copy image temp size left_offset down_offset ;;
            Returns (image_ptr, temp))
    else
      (op', Returns (image_ptr, temp)).

(** ** ZoomOperation *)

Record zoom_factor : Type := mkZoomFactor {
  min_factor : Q;
  max_factor : Q
}.

Record ZoomOperation : Type := mkZoom {
  zoom_base : Operation;
  factor : zoom_factor
}.

Definition ZoomOperation_perform (op : ZoomOperation) (image : Image)
  : ZoomOperation * performed :=
  let (fire, base) := operate_this_time (zoom_base op) in
  if negb fire then (mkZoom base (factor op), Returns (image_ptr, image))
  else
    let (zoom_level, base) :=
      uniform_random_number_between base
        (min_factor (factor op)) (max_factor (factor op)) in
    let zoom_level := (inject_Z (s32 (Qtrunc (zoom_level * 10))) / 10)%Q in
    let w := s32 (getWidth image) in
    let h := s32 (getHeight image) in
    let w_zoomed := s32 (Qtrunc (inject_Z w * zoom_level)) in
    let h_zoomed := s32 (Qtrunc (inject_Z h * zoom_level)) in
    let image := resize image h_zoomed w_zoomed in
    let operation :=
      mkCrop (mkOperation 1 (clock_generator E)) (mkSize (u64 h) (u64 w)) true in
    (mkZoom base (factor op), snd (CropOperation_perform operation image)).

(** ** RotateOperation *)

Record rotate_range : Type := mkRotateRange {
  min_rotate : Z;
  max_rotate : Z
}.

Record RotateOperation : Type := mkRotate {
  rotate_base : Operation;
  range : rotate_range
}.

(** The source coordinate a destination pixel is copied from. *)
Definition rotate_source (angle : Q) (hwidth hheight x y : Z) : Z * Z :=
  let xt := inject_Z (x - hwidth) in
  let yt := inject_Z (y - hheight) in
  let xs := s32 (Qround_away
                   ((libm_cos E angle * xt - libm_sin E angle * yt)
                    + inject_Z hwidth)) in
  let ys := s32 (Qround_away
                   ((libm_sin E angle * xt + libm_cos E angle * yt)
                    + inject_Z hheight)) in
  (xs, ys).

Definition rotate_copy (image temp : Image) (angle : Q) (w h : Z)
  : outcome Image :=
  let hwidth := Z.quot w 2 in
  let hheight := Z.quot h 2 in
  for_ 0 w
    (fun x temp =>
       for_ 0 h
         (fun y temp =>
            let (xs, ys) := rotate_source angle hwidth hheight x y in
            if (0 <=? xs) && (xs <? w) && (0 <=? ys) && (ys <? h) then
              p <- getPixel image xs ys ;;
              setPixel temp x y p
            else Returns temp)
         temp)
    temp.

Definition RotateOperation_perform (op : RotateOperation) (image : Image)
  : RotateOperation * performed :=
  let (fire, base) := operate_this_time (rotate_base op) in
  if negb fire then (mkRotate base (range op), Returns (image_ptr, image))
  else
    let (rotate_degree, base) :=
      uniform_random_number_between base
        (inject_Z (min_rotate (range op))) (inject_Z (max_rotate (range op))) in
    let w := s32 (getWidth image) in
    let h := s32 (getHeight image) in
    let temp := Image2 (u64 w) (u64 h) in
    let angle := (rotate_degree * PI / (180 # 1))%Q in
    (mkRotate base (range op),
     temp <- rotate_copy image temp angle w h ;;
     Returns (image_ptr, temp)).

(** ** InvertOperation *)

Record InvertOperation : Type := mkInvert {
  invert_base : Operation
}.

Definition invert_pixels (image : Image) : outcome Image :=
  for_ 0 (getHeight image)
    (fun y image =>
       for_ 0 (getWidth image)
         (fun x image =>
            pixels <- getPixel image x y ;;
            setPixel image x y (map (fun p => u8 (255 - p)) pixels))
         image)
    image.

Definition InvertOperation_perform (op : InvertOperation) (image : Image)
  : InvertOperation * performed :=
  let (fire, base) := operate_this_time (invert_base op) in
  if negb fire then (mkInvert base, Returns (image_ptr, image))
  else
    (mkInvert base,
     image <- invert_pixels image ;; Returns (image_ptr, image)).

(** ** FlipOperation *)

Record FlipOperation : Type := mkFlip {
  flip_base : Operation;
  type : string
}.

Definition flip_horizontal (image : Image) : outcome Image :=
  for_ 0 (getHeight image)
    (fun y image =>
       for_ 0 (getWidth image / 2)
         (fun x image =>
            left_pixels <- getPixel image x y ;;
            right_pixels <- getPixel image (u64 (getWidth image - x - 1)) y ;;
            image <- setPixel image x y right_pixels ;;
            setPixel image (u64 (getWidth image - x - 1)) y left_pixels)
         image)
    image.

Definition flip_vertical (image : Image) : outcome Image :=
  for_ 0 (getHeight image / 2)
    (fun y image =>
       for_ 0 (getWidth image)
         (fun x image =>
            top_pixels <- getPixel image x y ;;
            bottom_pixels <- getPixel image x (u64 (getHeight image - y - 1)) ;;
            image <- setPixel image x y bottom_pixels ;;
            setPixel image x (u64 (getHeight image - y - 1)) top_pixels)
         image)
    image.

Definition FlipOperation_perform (op : FlipOperation) (image : Image)
  : FlipOperation * performed :=
  let (fire, base) := operate_this_time (flip_base op) in
  let op' := mkFlip base (type op) in
  if negb fire then (op', Returns (image_ptr, image))
  else if String.eqb (type op) HORIZONTAL then
    (op', image <- flip_horizontal image ;; Returns (image_ptr, image))
  else if String.eqb (type op) VERTICAL then
    (op', image <- flip_vertical image ;; Returns (image_ptr, image))
  else
    (op', Throws (out_of_range
            "Unknown Flip type - Choose wither 'Horizontal' or 'Vertical'")).

(** ** GaussianBlurOperation *)

(** The filter is built by [gaussian_blur_filter_1D] of [filters.h] from a
    sigma; the operation only uses its size and its weights. *)
Record GaussianBlurOperation : Type := mkGaussianBlur {
  gaussian_base : Operation;
  gaussian_filter : list Q
}.

(** [val[p] += pixel[p] * filter[k]] for every channel [p] of [val] *)
Fixpoint val_add (val : list Q) (px : pixel) (weight : Q) : list Q :=
  match val with
  | [] => []
  | v :: vs =>
      (v + inject_Z (hd 0%Z px) * weight)%Q :: val_add vs (tl px) weight
  end.

(** [convert2pixel]: every [double] narrowed to [uint8_t] *)
Definition convert2pixel (src : list Q) : pixel :=
  map (fun v => u8 (Qtrunc v)) src.

(** [std::min((size_t) std::max(x0, 0l), dimension - 1)] *)
Definition clamp_tap (x0 dimension : Z) : Z :=
  Z.min (u64 (Z.max x0 0)) (u64 (dimension - 1)).

(** The taps of one output pixel: the loop over [k], with the running
    coordinate [x0] and the sums [val] as loop state.  [along_width] tells
    which coordinate the taps run along. *)
Definition gaussian_taps (image : Image) (filter : list Q) (along_width : bool)
    (i j : Z) : outcome (list Q) :=
  let kernel_size := Z.of_nat (List.length filter) in
  let start :=
    s64 (u64 ((if along_width then i else j) - kernel_size / 2)) in
  ' (val, _) <-
    for_ 0 kernel_size
      (fun k '(val, x0) =>
         px <- (if along_width
                then getPixel image (clamp_tap x0 (getWidth image)) j
                else getPixel image i (clamp_tap x0 (getHeight image))) ;;
         Returns (val_add val px (nth (Z.to_nat k) filter 0%Q), x0 + 1))
      (repeat 0%Q (Z.to_nat (getPixelSize image)), start) ;;
  Returns val.

Definition GaussianBlurOperation_perform (op : GaussianBlurOperation)
    (image : Image) : GaussianBlurOperation * performed :=
  let (fire, base) := operate_this_time (gaussian_base op) in
  let op' := mkGaussianBlur base (gaussian_filter op) in
  if negb fire then (op', Returns (image_ptr, image))
  else
    let filter := gaussian_filter op in
    let transient := Image4 (getWidth image) (getHeight image)
                       (getPixelSize image) (getColorSpace image) in
    (op',
     _ <- for_ 0 (getWidth image)
            (fun i transient =>
               for_ 0 (getHeight image)
                 (fun j transient =>
                    val <- gaussian_taps image filter true i j ;;
                    setPixel transient i j (convert2pixel val))
                 transient)
            transient ;;
     image <- for_ 0 (getWidth image)
                (fun i image =>
                   for_ 0 (getHeight image)
                     (fun j image =>
                        val <- gaussian_taps image filter false i j ;;
                        setPixel image i j (convert2pixel val))
                     image)
                image ;;
     Returns (image_ptr, image)).

(** ** The accumulator of the box blur *)

Definition accumulator : Type := list Z.

Definition accumulator_new (n : Z) : accumulator := repeat 0 (Z.to_nat n).

(** [add]: [values[i] += val[i]] *)
Fixpoint accumulator_add (acc : accumulator) (val : pixel) : accumulator :=
  match acc with
  | [] => []
  | v :: vs => u64 (v + hd 0 val) :: accumulator_add vs (tl val)
  end.

(** [shift]: [values[i] += add[i]; values[i] -= del[i]] *)
Fixpoint accumulator_shift (acc : accumulator) (del add : pixel) : accumulator :=
  match acc with
  | [] => []
  | v :: vs =>
      u64 (u64 (v + hd 0 add) - hd 0 del)
      :: accumulator_shift vs (tl del) (tl add)
  end.

(** [div]: [res[i] = values[i] / denominator], narrowed to [u_int8_t] *)
Definition accumulator_div (acc : accumulator) (denominator : Z)
  : outcome pixel :=
  if denominator =? 0 then
    match acc with
    | [] => Returns []
    | _ :: _ => Undefined division_by_zero
    end
  else Returns (map (fun v => u8 (v / denominator)) acc).

(** ** BoxBlurOperation *)

(** [box_blur_filter_1D] of [filters.h] is used through its field [length]. *)
Record BoxBlurOperation : Type := mkBoxBlur {
  box_base : Operation;
  filter_length : Z
}.

(** One scan line of the sliding window.  [src] is read and [dst] written;
    [get] and [set] address the pixel at a position along the line, [n] is
    the length of the line. *)
Definition box_line (len n : Z)
    (get : Z -> outcome pixel) (set : Image -> Z -> pixel -> outcome Image)
    (pixel_size : Z) (dst : Image) : outcome Image :=
  let acc := accumulator_new pixel_size in
  let y0 := s64 (u64 (- (len / 2))) in
  ' (acc, _, dst) <-
    for_ 0 len
      (fun k '(acc, y0, dst) =>
         let y := clamp_tap y0 n in
         px <- get y ;;
         let acc := accumulator_add acc px in
         out <- accumulator_div acc len ;;
         dst <- set dst 0 out ;;
         Returns (acc, y0 + 1, dst))
      (acc, y0, dst) ;;
  let y_del := s64 (u64 (- (len / 2))) in
  let y_add := u64 (len / 2 + 1) in
  ' (_, _, _, dst) <-
    for_ 1 n
      (fun j '(acc, y_del, y_add, dst) =>
         let prev := u64 (Z.max y_del 0) in
         let next := Z.min y_add (u64 (n - 1)) in
         del <- get prev ;;
         add <- get next ;;
         let acc := accumulator_shift acc del add in
         out <- accumulator_div acc len ;;
         dst <- set dst j out ;;
         Returns (acc, y_del + 1, u64 (y_add + 1), dst))
      (acc, y_del, y_add, dst) ;;
  Returns dst.

Definition box_blur (len : Z) (image : Image) : outcome Image :=
  let transient := Image4 (getWidth image) (getHeight image)
                     (getPixelSize image) (getColorSpace image) in
  let pixel_size := getPixelSize image in
  transient <-
    for_ 0 (getWidth image)
      (fun i transient =>
         box_line len (getHeight image)
           (fun y => getPixel image i y)
           (fun t j p => setPixel t i j p)
           pixel_size transient)
      transient ;;
  for_ 0 (getHeight image)
    (fun j image =>
       box_line len (getWidth image)
         (fun x => getPixel transient x j)
         (fun im i p => setPixel im i j p)
         pixel_size image)
    image.

Definition BoxBlurOperation_perform (op : BoxBlurOperation) (image : Image)
  : BoxBlurOperation * performed :=
  let (fire, base) := operate_this_time (box_base op) in
  let op' := mkBoxBlur base (filter_length op) in
  if negb fire then (op', Returns (image_ptr, image))
  else (op', image <- box_blur (filter_length op) image ;;
             Returns (image_ptr, image)).

(** ** FastGaussianBlurOperation *)

Record FastGaussianBlurOperation : Type := mkFastGaussianBlur {
  fast_base : Operation;
  box_blur_operations : list BoxBlurOperation
}.

(** [for (auto operation : box_blur_operations) image = operation.perform(image)]:
    every pass runs on a copy of the stored operation. *)
Fixpoint run_passes (operations : list BoxBlurOperation) (image : Image)
  : performed :=
  match operations with
  | [] => Returns (image_ptr, image)
  | operation :: rest =>
      ' (_, image) <- snd (BoxBlurOperation_perform operation image) ;;
      run_passes rest image
  end.

Definition FastGaussianBlurOperation_perform (op : FastGaussianBlurOperation)
    (image : Image) : FastGaussianBlurOperation * performed :=
  let (fire, base) := operate_this_time (fast_base op) in
  let op' := mkFastGaussianBlur base (box_blur_operations op) in
  if negb fire then (op', Returns (image_ptr, image))
  else (op', run_passes (box_blur_operations op) image).

(** ** RandomEraseOperation *)

Record RandomEraseOperation : Type := mkRandomErase {
  erase_base : Operation;
  xy_generator : UniformDistributionGenerator Z;
  noise_generator : UniformDistributionGenerator Z;
  lower_mask_size : image_size;
  upper_mask_size : image_size
}.

(** [for (k = 0; k < pixel_size; ++k) new_pixel[k] = noise_generator()] *)
Fixpoint noise_pixel (n : nat) (noise : UniformDistributionGenerator Z)
  : pixel * UniformDistributionGenerator Z :=
  match n with
  | O => ([], noise)
  | S n' =>
      let (v, noise) := draw noise in
      let (vs, noise) := noise_pixel n' noise in
      (v :: vs, noise)
  end.

(** [a % b] on [size_t] *)
Definition umod (a b : Z) : outcome Z :=
  if b =? 0 then Undefined division_by_zero else Returns (a mod b).

Definition erase_size_of (image : Image) (lower upper : image_size)
    (factor : Q) : image_size :=
  let lower_erase_size :=
    mkSize (Z.min (getHeight image) (height lower))
           (Z.min (getWidth image) (width lower)) in
  let upper_erase_size :=
    mkSize (Z.min (getHeight image) (height upper))
           (Z.min (getWidth image) (width upper)) in
  mkSize
    (u64 (u64 (Qtrunc (inject_Z (u64 (height upper_erase_size
                                      - height lower_erase_size)) * factor))
          + height lower_erase_size))
    (u64 (u64 (Qtrunc (inject_Z (u64 (width upper_erase_size
                                      - width lower_erase_size)) * factor))
          + width lower_erase_size)).

Definition erase_fill (image : Image) (noise : UniformDistributionGenerator Z)
    (left top : Z) (erase_size : image_size)
  : outcome (UniformDistributionGenerator Z * Image) :=
  let pixel_size := getPixelSize image in
  for_ left (u64 (left + width erase_size))
    (fun i st =>
       for_ top (u64 (top + height erase_size))
         (fun j '(noise, image) =>
            let (new_pixel, noise) := noise_pixel (Z.to_nat pixel_size) noise in
            image <- setPixel image i j new_pixel ;;
            Returns (noise, image))
         st)
    (noise, image).

Definition RandomEraseOperation_perform (op : RandomEraseOperation)
    (image : Image) : RandomEraseOperation * performed :=
  let (fire, base) := operate_this_time (erase_base op) in
  let lower := lower_mask_size op in
  let upper := upper_mask_size op in
  if negb fire then
    (mkRandomErase base (xy_generator op) (noise_generator op) lower upper,
     Returns (image_ptr, image))
  else
    let (factor, base) := uniform_random_number base in
    let erase_size := erase_size_of image lower upper factor in
    let (r_top, xy) := draw (xy_generator op) in
    let (r_left, xy) := draw xy in
    let filled :=
      top <- umod r_top (u64 (getHeight image - height erase_size + 1)) ;;
      left <- umod r_left (u64 (getWidth image - width erase_size + 1)) ;;
      erase_fill image (noise_generator op) left top erase_size in
    match filled with
    | Returns (noise, image) =>
        (mkRandomErase base xy noise lower upper, Returns (image_ptr, image))
    | Throws e =>
        (mkRandomErase base xy (noise_generator op) lower upper, Throws e)
    | Undefined u =>
        (mkRandomErase base xy (noise_generator op) lower upper, Undefined u)
    end.

(** ** Every operation

    [perform] is virtual in [Operation<Image>]; the classes deriving from it
    in this file are the cases of [AnyOperation]. *)
Inductive AnyOperation : Type :=
| Stdout (op : StdoutOperation)
| Resize (op : ResizeOperation)
| Crop (op : CropOperation)
| Rotate (op : RotateOperation)
| Zoom (op : ZoomOperation)
| Invert (op : InvertOperation)
| GaussianBlur (op : GaussianBlurOperation)
| BoxBlur (op : BoxBlurOperation)
| FastGaussianBlur (op : FastGaussianBlurOperation)
| RandomErase (op : RandomEraseOperation)
| Flip (op : FlipOperation).

Definition base_of (op : AnyOperation) : Operation :=
  match op with
  | Stdout o => stdout_base o
  | Resize o => resize_base o
  | Crop o => crop_base o
  | Rotate o => rotate_base o
  | Zoom o => zoom_base o
  | Invert o => invert_base o
  | GaussianBlur o => gaussian_base o
  | BoxBlur o => box_base o
  | FastGaussianBlur o => fast_base o
  | RandomErase o => erase_base o
  | Flip o => flip_base o
  end.

Definition perform (op : AnyOperation) (image : Image)
  : AnyOperation * performed :=
  match op with
  | Stdout o => let (o, r) := StdoutOperation_perform o image in (Stdout o, r)
  | Resize o => let (o, r) := ResizeOperation_perform o image in (Resize o, r)
  | Crop o => let (o, r) := CropOperation_perform o image in (Crop o, r)
  | Rotate o => let (o, r) := RotateOperation_perform o image in (Rotate o, r)
  | Zoom o => let (o, r) := ZoomOperation_perform o image in (Zoom o, r)
  | Invert o => let (o, r) := InvertOperation_perform o image in (Invert o, r)
  | GaussianBlur o =>
      let (o, r) := GaussianBlurOperation_perform o image in (GaussianBlur o, r)
  | BoxBlur o => let (o, r) := BoxBlurOperation_perform o image in (BoxBlur o, r)
  | FastGaussianBlur o =>
      let (o, r) := FastGaussianBlurOperation_perform o image in
      (FastGaussianBlur o, r)
  | RandomErase o =>
      let (o, r) := RandomEraseOperation_perform o image in (RandomErase o, r)
  | Flip o => let (o, r) := FlipOperation_perform o image in (Flip o, r)
  end.

(** The gate of the next call fires: the next draw is at most the
    probability. *)
Definition fires (o : Operation) : bool := fst (operate_this_time o).

(** The value the generator of the operation yields at its next call. *)
Definition next_draw (o : Operation) : Q :=
  values (generator o) (drawn (generator o)).

End Operations.

(** ** Images as pixel grids *)

(** Two images with the same dimensions and the same pixel everywhere. *)
Definition same_grid (a b : Image) : Prop :=
  getWidth a = getWidth b /\ getHeight a = getHeight b /\
  forall x y, pixelAt a x y = pixelAt b x y.

Definition is_byte (v : Z) : bool := (0 <=? v) && (v <? 256).

Definition every_pixel (ok : pixel -> bool) (image : Image) : bool :=
  forallb
    (fun y =>
       forallb (fun x => ok (pixelAt image (Z.of_nat x) (Z.of_nat y)))
         (seq 0 (Z.to_nat (getWidth image))))
    (seq 0 (Z.to_nat (getHeight image))).

(** The invariant of an [Image] of 8-bit channels: every pixel is a vector
    of [getPixelSize] values of type [uint8_t]. *)
Definition well_formed (image : Image) : bool :=
  (0 <=? getPixelSize image) &&
  every_pixel
    (fun p => (Z.of_nat (List.length p) =? getPixelSize image) && forallb is_byte p)
    image.

(** Every pixel of the image is the vector [p]. *)
Definition constant_image (p : pixel) (image : Image) : Prop :=
  forall x y, in_bounds image x y = true -> pixelAt image x y = p.

(** ** The direct box convolution

    The reference the sliding window is compared with, written from the
    words of the specification: a separable convolution with an all-ones
    kernel of length [len]; a tap outside [0, dimension) is replaced by the
    nearest coordinate inside; per output pixel and channel the taps are
    summed and the sum divided by [len] with truncation; one axis goes into
    a transient buffer, the other from the transient into the output. *)

Definition clamp_to_edge (x dimension : Z) : Z :=
  Z.max 0 (Z.min x (dimension - 1)).

(** [sample first + sample (first + 1) + ... ] over [k] taps *)
Fixpoint tap_sum (k : nat) (first : Z) (sample : Z -> Z) : Z :=
  match k with
  | O => 0
  | S k' => sample first + tap_sum k' (first + 1) sample
  end.

Definition direct_box_line (len dimension pixel_size : Z) (line : Z -> pixel)
    (j : Z) : pixel :=
  map (fun c =>
         tap_sum (Z.to_nat len) (j - len / 2)
           (fun t => nth c (line (clamp_to_edge t dimension)) 0)
         / len)
    (seq 0 (Z.to_nat pixel_size)).

Definition direct_box_blur (len : Z) (image : Image) : Image :=
  let transient x y :=
    direct_box_line len (getHeight image) (getPixelSize image)
      (fun t => pixelAt image x t) y in
  mkImage (getWidth image) (getHeight image) (getPixelSize image)
    (getColorSpace image)
    (fun x y =>
       direct_box_line len (getWidth image) (getPixelSize image)
         (fun t => transient t y) x).

(** The sums the sliding window holds, channel by channel, as exact
    integers: the first window summed tap by tap, then one pixel added and
    one removed per step. *)
Fixpoint sliding_sum (len n : Z) (line : Z -> Z) (j : nat) : Z :=
  match j with
  | O => tap_sum (Z.to_nat len) (- (len / 2))
           (fun t => line (clamp_to_edge t n))
  | S j' =>
      sliding_sum len n line j'
      + line (Z.min (len / 2 + 1 + Z.of_nat j') (n - 1))
      - line (Z.max (- (len / 2) + Z.of_nat j') 0)
  end.

(** ** Concrete inputs *)

Definition zero_pixel (n : Z) : pixel := repeat 0 (Z.to_nat n).

(** An environment: one channel by default, unset pixels are zero, resizing
    keeps the pixel at the same coordinate, two-term approximations of the
    cosine and the sine. *)
Definition sample_environment : Environment :=
  mkEnvironment 1 0 zero_pixel (fun img _ _ x y => pixelAt img x y)
    (fun a => (1 - a * a / (2 # 1))%Q) (fun a => a)
    (mkGenerator (fun _ => (1 # 2)%Q) 0).

(** A generator that yields [q] at every draw. *)
Definition constant_generator {DataType : Type} (q : DataType)
  : UniformDistributionGenerator DataType :=
  mkGenerator (fun _ => q) 0.

(** A one-channel image given by its rows. *)
Definition gray_image (w h : Z) (rows : list (list Z)) : Image :=
  mkImage w h 1 0
    (fun x y => [nth (Z.to_nat x) (nth (Z.to_nat y) rows []) 0]).

(** The pixels of an image, row by row. *)
Definition rows_of (image : Image) : list (list pixel) :=
  map (fun y =>
         map (fun x => pixelAt image (Z.of_nat x) (Z.of_nat y))
           (seq 0 (Z.to_nat (getWidth image))))
    (seq 0 (Z.to_nat (getHeight image))).

(** A 2 x 2 image, and operations whose generator yields 1/2 at every draw. *)
Definition image_2x2 : Image := gray_image 2 2 [[1; 2]; [3; 4]].

Definition always (p : Q) : Operation :=
  mkOperation p (constant_generator (1 # 2)%Q).

(** Two images of the same dimensions, pixel size and colour space. *)
Definition same_shape (a b : Image) : Prop :=
  getWidth a = getWidth b /\ getHeight a = getHeight b /\
  getPixelSize a = getPixelSize b /\ getColorSpace a = getColorSpace b.

(** [p = 255 - p] on every channel of a pixel *)
Definition inverted (p : pixel) : pixel := map (fun v => u8 (255 - v)) p.

(** The angle, in degrees, the next call of [RotateOperation::perform] draws
    once its gate has been passed. *)
Definition drawn_degree (op : RotateOperation) : Q :=
  fst (uniform_random_number_between
         (snd (operate_this_time (rotate_base op)))
         (inject_Z (min_rotate (range op)))
         (inject_Z (max_rotate (range op)))).

(** The source coordinate of the destination pixel [(x, y)] in that call. *)
Definition source_of (E : Environment) (op : RotateOperation) (image : Image)
    (x y : Z) : Z * Z :=
  rotate_source E (drawn_degree op * PI / (180 # 1))%Q
    (Z.quot (s32 (getWidth image)) 2) (Z.quot (s32 (getHeight image)) 2) x y.

(** The unit factor the next call of [RandomEraseOperation::perform] draws
    once its gate has been passed, and the size of the rectangle it erases. *)
Definition erase_factor (op : RandomEraseOperation) : Q :=
  next_draw (snd (operate_this_time (erase_base op))).

Definition erase_size (op : RandomEraseOperation) (image : Image) : image_size :=
  erase_size_of image (lower_mask_size op) (upper_mask_size op) (erase_factor op).

(** The inside of the rectangle with corner [(left, top)] and size [size]. *)
Definition inside (left top : Z) (size : image_size) (x y : Z) : bool :=
  (left <=? x) && (x <? left + width size) &&
  (top <=? y) && (y <? top + height size).

(** The noise written at [(x, y)]: the rectangle is filled column by column,
    each pixel with [pixel_size] consecutive values of the noise generator. *)
Definition noise_at (noise : UniformDistributionGenerator Z) (pixel_size : Z)
    (left top : Z) (size : image_size) (x y : Z) : pixel :=
  fst (noise_pixel (Z.to_nat pixel_size)
         (mkGenerator (values noise)
            (drawn noise
             + Z.to_nat (((x - left) * height size + (y - top)) * pixel_size)))).

(** An 8 x 8 one-channel image with 64 different pixels, and a random erase
    of 2 x 2 rectangles that always fires. *)
Definition image_8x8 : Image := mkImage 8 8 1 0 (fun x y => [x + 8 * y]).

Definition erase_2x2 : RandomEraseOperation :=
  mkRandomErase (always 1) (constant_generator 5)
    (mkGenerator (fun n => 200 + Z.of_nat n) 0) (mkSize 2 2) (mkSize 2 2).

(** The pixel the sliding window writes at position [t] of a scan line:
    per channel, the sum held in the [uint64_t] accumulator divided by the
    length of the filter and narrowed to [uint8_t]. *)
Definition box_out (len n pixel_size : Z) (line : Z -> pixel) (t : Z) : pixel :=
  map (fun c =>
         u8 (u64 (sliding_sum len n (fun t' => nth c (line t') 0) (Z.to_nat t))
             / len))
    (seq 0 (Z.to_nat pixel_size)).



(** A 4 x 4 one-channel image with every pixel 100; a box blur of length 3
    and Gaussian blurs with the kernels (1/4, 1/2, 1/4), whose weights sum
    to 1, and (1/4, 499/1000, 1/4), whose weights sum to 999/1000. *)
Definition flat_image : Image := mkImage 4 4 1 0 (fun _ _ => [100]).

Definition box_3 : BoxBlurOperation := mkBoxBlur (always 1) 3.



(** A column of three pixels and a column of four, and a box blur of the
    even length 2. *)
Definition column_3 : Image := gray_image 1 3 [[0]; [10]; [20]].

Definition column_4 : Image := gray_image 1 4 [[0]; [255]; [0]; [0]].

Definition box_2 : BoxBlurOperation := mkBoxBlur (always 1) 2.

(** The number of values a call of [perform] takes from the generator of the
    operation: one for the gate, and one more for the parameter the resize,
    the rotation, the zoom and the random erase draw once the gate has
    fired. *)
Definition draws_of (op : AnyOperation) : nat :=
  if fires (base_of op) then
    match op with
    | Resize _ | Rotate _ | Zoom _ | RandomErase _ => 2
    | _ => 1
    end
  else 1.

(** A random erase whose masks are at least 2 x 2. *)
Definition erase_large : RandomEraseOperation :=
  mkRandomErase (always 1) (constant_generator 5)
    (mkGenerator (fun n => 200 + Z.of_nat n) 0) (mkSize 2 2) (mkSize 9 9).


(** The zoom level the next call of [ZoomOperation::perform] uses once its
    gate has been passed (the drawn factor cut to one decimal place), and
    the dimensions it resizes the image to. *)
Definition zoom_level (op : ZoomOperation) : Q :=
  (inject_Z
     (s32 (Qtrunc
             (fst (uniform_random_number_between
                     (snd (operate_this_time (zoom_base op)))
                     (min_factor (factor op)) (max_factor (factor op)))
              * 10)))
   / 10)%Q.




(** * Properties *)

(** ** The probability gate *)

Lemma operate_this_time_eq (o : Operation) :
  operate_this_time o =
  (Qle_bool (next_draw o) (probability o),
   mkOperation (probability o)
     (mkGenerator (values (generator o)) (S (drawn (generator o))))).
Proof. reflexivity. Qed.

Lemma fires_iff (o : Operation) :
  fires o = true <-> (next_draw o <= probability o)%Q.
Proof. unfold fires. rewrite operate_this_time_eq. apply Qle_bool_iff. Qed.




(** ** The skip outcome *)

Lemma not_fires (o : Operation) :
  fires o = false -> operate_this_time o = (false, snd (operate_this_time o)).
Proof.
  unfold fires. destruct (operate_this_time o) as [b o']. cbn. now intros ->.
Qed.

(** C2, as the code has it.  When the gate fails, every operation but
    [StdoutOperation] returns the pointer it was given, with the image
    untouched; [StdoutOperation] leaves the image untouched and returns
    [nullptr]. *)
Theorem perform_skip (E : Environment) (op : AnyOperation) (image : Image) :
  fires (base_of op) = false ->
  snd (perform E op image) =
  Returns (match op with Stdout _ => nullptr | _ => image_ptr end, image).
Proof.
  intro H. apply not_fires in H.
  destruct op as [o|o|o|o|o|o|o|o|o|o|o]; cbn [base_of] in H; cbn [perform].
  - unfold StdoutOperation_perform. rewrite H. reflexivity.
  - unfold ResizeOperation_perform. rewrite H. reflexivity.
  - unfold CropOperation_perform. rewrite H. reflexivity.
  - unfold RotateOperation_perform. rewrite H. reflexivity.
  - unfold ZoomOperation_perform. rewrite H. reflexivity.
  - unfold InvertOperation_perform. rewrite H. reflexivity.
  - unfold GaussianBlurOperation_perform. rewrite H. reflexivity.
  - unfold BoxBlurOperation_perform. rewrite H. reflexivity.
  - unfold FastGaussianBlurOperation_perform. rewrite H. reflexivity.
  - unfold RandomEraseOperation_perform. rewrite H. reflexivity.
  - unfold FlipOperation_perform. rewrite H. reflexivity.
Qed.

Lemma perform_skip_witness :
  snd (perform sample_environment (Invert (mkInvert (always (1 # 4)))) image_2x2)
  = Returns (image_ptr, image_2x2).
Proof.
  exact (perform_skip sample_environment (Invert (mkInvert (always (1 # 4))))
           image_2x2 eq_refl).
Defined.

(** C2, as the claim has it, fails for [StdoutOperation]: with probability
    1/4 and a draw of 1/2 the gate fails and [perform] returns [nullptr]. *)
Lemma StdoutOperation_skip_returns_nullptr :
  let op := Stdout (mkStdout (always (1 # 4)) EmptyString) in
  fires (base_of op) = false /\
  snd (perform sample_environment op image_2x2) = Returns (nullptr, image_2x2).
Proof. split; reflexivity. Qed.

Lemma fires_true (o : Operation) :
  fires o = true -> operate_this_time o = (true, snd (operate_this_time o)).
Proof.
  unfold fires. destruct (operate_this_time o) as [b o']. cbn. now intros ->.
Qed.

(** ** Flip with an unknown type *)

Lemma eqb_neq_false (a b : string) : a <> b -> String.eqb a b = false.
Proof. intro H. now apply String.eqb_neq. Qed.

(** C9.  When the gate fires and the type is neither "Horizontal" nor
    "Vertical", [FlipOperation::perform] throws; the throw is the only thing
    it does after the single draw of the gate: no pixel is read or written
    and nothing is tried again. *)
Theorem FlipOperation_unknown_type
    (E : Environment) (op : FlipOperation) (image : Image) :
  fires (flip_base op) = true ->
  type op <> HORIZONTAL ->
  type op <> VERTICAL ->
  snd (FlipOperation_perform op image) =
    Throws (out_of_range
              "Unknown Flip type - Choose wither 'Horizontal' or 'Vertical'") /\
  drawn (generator (flip_base (fst (FlipOperation_perform op image)))) =
    S (drawn (generator (flip_base op))) /\
  snd (perform E (Flip op) image) =
    Throws (out_of_range
              "Unknown Flip type - Choose wither 'Horizontal' or 'Vertical'").
Proof.
  intros Hf Hh Hv. apply fires_true in Hf.
  cbn [perform]. unfold FlipOperation_perform. rewrite Hf.
  rewrite (eqb_neq_false _ _ Hh), (eqb_neq_false _ _ Hv).
  cbn [negb fst snd flip_base].
  rewrite operate_this_time_eq. repeat split.
Qed.

Lemma FlipOperation_unknown_type_witness :
  snd (FlipOperation_perform (mkFlip (always 1) "Diagonal") image_2x2) =
    Throws (out_of_range
              "Unknown Flip type - Choose wither 'Horizontal' or 'Vertical'").
Proof.
  refine (proj1 (FlipOperation_unknown_type sample_environment
                   (mkFlip (always 1) "Diagonal") image_2x2 eq_refl _ _));
    cbn; discriminate.
Defined.

(** ** Crop *)

(** C10.  When the gate fires and [center] is false, [CropOperation::perform]
    copies nothing and assigns the temporary to the caller's image: whatever
    the source was, the image is now the freshly constructed one of the
    target dimensions, with every pixel unset; so the image is changed as
    soon as its dimensions were not the target ones. *)
Theorem CropOperation_random_center_blank
    (E : Environment) (op : CropOperation) (image : Image) :
  fires (crop_base op) = true ->
  center op = false ->
  let blank := Image2 E (width (crop_size op)) (height (crop_size op)) in
  snd (CropOperation_perform E op image) = Returns (image_ptr, blank) /\
  getWidth blank = width (crop_size op) /\
  getHeight blank = height (crop_size op) /\
  (forall x y, pixelAt blank x y = unset_pixel E (default_pixel_size E)) /\
  (getWidth image <> width (crop_size op) \/
   getHeight image <> height (crop_size op) -> blank <> image).
Proof.
  intros Hf Hc blank. apply fires_true in Hf.
  unfold CropOperation_perform. rewrite Hf, Hc. cbn [negb snd].
  repeat split.
  intros [Hw | Hh] Heq; [apply Hw | apply Hh]; rewrite <- Heq; reflexivity.
Qed.

Lemma CropOperation_random_center_blank_witness :
  snd (CropOperation_perform sample_environment
         (mkCrop (always 1) (mkSize 1 1) false) image_2x2)
  = Returns (image_ptr, Image2 sample_environment 1 1).
Proof.
  exact (proj1 (CropOperation_random_center_blank sample_environment
                  (mkCrop (always 1) (mkSize 1 1) false) image_2x2
                  eq_refl eq_refl)).
Defined.

(** C4: what the code does where the claim asks for an out-of-bounds error.
    A centred crop to 4 x 4 of a 2 x 2 image: the offsets [1 - 2] wrap to
    [2^64 - 1], both copy loops end at once, and [perform] returns a blank
    4 x 4 image.  A centred crop to 3 x 3 of the same image: the offsets are
    0 and the copy reads the pixel (0, 2), outside the image.  No error is
    raised in either case. *)
Theorem CropOperation_center_out_of_bounds :
  fires (always 1) = true /\
  snd (CropOperation_perform sample_environment
         (mkCrop (always 1) (mkSize 4 4) true) image_2x2)
  = Returns (image_ptr, Image2 sample_environment 4 4) /\
  snd (CropOperation_perform sample_environment
         (mkCrop (always 1) (mkSize 3 3) true) image_2x2)
  = Undefined out_of_bounds_access.
Proof. repeat split; vm_compute; reflexivity. Qed.

Lemma bind_no_throw {A B : Type} (m : outcome A) (k : A -> outcome B) :
  (forall e, m <> Throws e) -> (forall a e, k a <> Throws e) ->
  forall e, bind m k <> Throws e.
Proof.
  intros Hm Hk e. destruct m as [a | e' | u]; cbn.
  - apply Hk.
  - exfalso. now apply (Hm e').
  - discriminate.
Qed.

Lemma iterate_no_throw {St : Type} (body : Z -> St -> outcome St) :
  (forall i s e, body i s <> Throws e) ->
  forall n i s e, iterate n i body s <> Throws e.
Proof.
  intros Hb n. induction n as [| n IH]; intros i s e; cbn [iterate].
  - discriminate.
  - apply bind_no_throw; [apply Hb | intros; apply IH].
Qed.

Lemma getPixel_no_throw (img : Image) (x y : Z) (e : exception) :
  getPixel img x y <> Throws e.
Proof. unfold getPixel. destruct (in_bounds img x y); discriminate. Qed.

Lemma setPixel_no_throw (img : Image) (x y : Z) (p : pixel) (e : exception) :
  setPixel img x y p <> Throws e.
Proof. unfold setPixel. destruct (in_bounds img x y); discriminate. Qed.

(** No call of [CropOperation::perform] throws: the bounds of the target
    rectangle are never checked. *)
Lemma CropOperation_perform_never_throws
    (E : Environment) (op : CropOperation) (image : Image) (e : exception) :
  snd (CropOperation_perform E op image) <> Throws e.
Proof.
  unfold CropOperation_perform.
  destruct (operate_this_time (crop_base op)) as [fire base].
  destruct fire; cbn [negb]; [| discriminate].
  destruct (center op); cbn [snd]; [| discriminate].
  apply bind_no_throw; [| discriminate].
  unfold crop_copy. intro e'.
  apply bind_no_throw; [| intros [t c]; discriminate].
  unfold for_. apply iterate_no_throw. intros i [t i1] e''.
  apply bind_no_throw; [| intros [t' c]; discriminate].
  apply iterate_no_throw. intros j [t' j1] e3.
  apply bind_no_throw; [apply getPixel_no_throw |].
  intros p e4. apply bind_no_throw; [apply setPixel_no_throw | discriminate].
Qed.

(** ** Loops and pixel accesses *)

Lemma iterate_rule {St : Type} (Inv : Z -> St -> Prop)
    (body : Z -> St -> outcome St) (n : nat) :
  forall (lo : Z) (s : St),
    Inv lo s ->
    (forall i s, lo <= i < lo + Z.of_nat n -> Inv i s ->
                 exists s', body i s = Returns s' /\ Inv (i + 1) s') ->
    exists s', iterate n lo body s = Returns s' /\ Inv (lo + Z.of_nat n) s'.
Proof.
  induction n as [| n IH]; intros lo s H0 Hstep.
  - exists s. split; [reflexivity |]. now replace (lo + Z.of_nat 0) with lo by lia.
  - destruct (Hstep lo s) as (s1 & Hb & H1); [lia | exact H0 |].
    destruct (IH (lo + 1) s1 H1) as (s2 & Hit & H2).
    + intros i t Hi. apply Hstep. lia.
    + exists s2. cbn [iterate]. rewrite Hb. cbn [bind]. split; [exact Hit |].
      now replace (lo + Z.of_nat (S n)) with (lo + 1 + Z.of_nat n) by lia.
Qed.

(** The rule of a [for] loop: an invariant that holds on entry and is kept
    by every iteration holds on exit, and the loop returns. *)
Lemma for_rule {St : Type} (Inv : Z -> St -> Prop)
    (body : Z -> St -> outcome St) (lo hi : Z) (s : St) :
  Inv lo s ->
  (forall i s, lo <= i < hi -> Inv i s ->
               exists s', body i s = Returns s' /\ Inv (i + 1) s') ->
  exists s', for_ lo hi body s = Returns s' /\ Inv (Z.max lo hi) s'.
Proof.
  intros H0 Hstep. unfold for_.
  destruct (iterate_rule Inv body (Z.to_nat (hi - lo)) lo s H0) as (s' & Hit & H').
  - intros i t Hi. apply Hstep. lia.
  - exists s'. split; [exact Hit |].
    now replace (Z.max lo hi) with (lo + Z.of_nat (Z.to_nat (hi - lo))) by lia.
Qed.

Lemma in_bounds_iff (img : Image) (x y : Z) :
  in_bounds img x y = true <->
  0 <= x < getWidth img /\ 0 <= y < getHeight img.
Proof.
  unfold in_bounds. rewrite !andb_true_iff, !Z.leb_le, !Z.ltb_lt. lia.
Qed.

Lemma getPixel_ok (img : Image) (x y : Z) :
  0 <= x < getWidth img -> 0 <= y < getHeight img ->
  getPixel img x y = Returns (pixelAt img x y).
Proof.
  intros Hx Hy. unfold getPixel.
  now rewrite (proj2 (in_bounds_iff img x y) (conj Hx Hy)).
Qed.

Lemma setPixel_ok (img : Image) (x y : Z) (p : pixel) :
  0 <= x < getWidth img -> 0 <= y < getHeight img ->
  exists img',
    setPixel img x y p = Returns img' /\
    getWidth img' = getWidth img /\ getHeight img' = getHeight img /\
    getPixelSize img' = getPixelSize img /\
    getColorSpace img' = getColorSpace img /\
    forall x' y', pixelAt img' x' y' =
                  if (x' =? x) && (y' =? y) then p else pixelAt img x' y'.
Proof.
  intros Hx Hy. unfold setPixel.
  rewrite (proj2 (in_bounds_iff img x y) (conj Hx Hy)).
  eexists. split; [reflexivity |]. cbn. repeat split.
Qed.

(** Case analysis on the integer comparisons of a goal. *)
Ltac compare_cases :=
  repeat match goal with
         | |- context [?a =? ?b] => destruct (Z.eqb_spec a b)
         | |- context [?a <=? ?b] => destruct (Z.leb_spec a b)
         | |- context [?a <? ?b] => destruct (Z.ltb_spec a b)
         end;
  cbn [andb orb negb]; try reflexivity; try lia.

Lemma well_formed_pixel (image : Image) (x y : Z) :
  well_formed image = true ->
  in_bounds image x y = true ->
  Z.of_nat (List.length (pixelAt image x y)) = getPixelSize image /\
  Forall (fun v => 0 <= v < 256) (pixelAt image x y).
Proof.
  unfold well_formed, every_pixel. intros Hwf Hb.
  apply andb_true_iff in Hwf. destruct Hwf as [_ Hall].
  apply in_bounds_iff in Hb. destruct Hb as [Hx Hy].
  rewrite forallb_forall in Hall.
  specialize (Hall (Z.to_nat y)). rewrite in_seq in Hall.
  assert (Hrow := Hall ltac:(lia)). clear Hall.
  rewrite forallb_forall in Hrow.
  specialize (Hrow (Z.to_nat x)). rewrite in_seq in Hrow.
  assert (Hp := Hrow ltac:(lia)). clear Hrow.
  rewrite !Z2Nat.id in Hp by lia.
  apply andb_true_iff in Hp. destruct Hp as [Hlen Hbytes].
  split; [now apply Z.eqb_eq |].
  apply Forall_forall. intros v Hv.
  rewrite forallb_forall in Hbytes. specialize (Hbytes v Hv).
  unfold is_byte in Hbytes. apply andb_true_iff in Hbytes.
  rewrite Z.leb_le, Z.ltb_lt in Hbytes. exact Hbytes.
Qed.

Lemma same_shape_refl (a : Image) : same_shape a a.
Proof. repeat split. Qed.

Lemma setPixel_shape (img : Image) (x y : Z) (p : pixel) :
  0 <= x < getWidth img -> 0 <= y < getHeight img ->
  exists img',
    setPixel img x y p = Returns img' /\ same_shape img' img /\
    forall x' y', pixelAt img' x' y' =
                  if (x' =? x) && (y' =? y) then p else pixelAt img x' y'.
Proof.
  intros Hx Hy.
  destruct (setPixel_ok img x y p Hx Hy) as (img' & Hs & Hw & Hh & Hp & Hc & Hpix).
  exists img'. repeat split; assumption.
Qed.

(** ** Invert *)

Lemma invert_pixels_spec (image : Image) :
  exists r,
    invert_pixels image = Returns r /\ same_shape r image /\
    forall x y, pixelAt r x y =
                if in_bounds image x y then inverted (pixelAt image x y)
                else pixelAt image x y.
Proof.
  unfold invert_pixels.
  set (W := getWidth image). set (H := getHeight image).
  destruct (for_rule
    (fun y s =>
       same_shape s image /\
       forall x' y', pixelAt s x' y' =
         if (0 <=? x') && (x' <? W) && (0 <=? y') && (y' <? y)
         then inverted (pixelAt image x' y') else pixelAt image x' y')
    (fun y image0 =>
       for_ 0 (getWidth image0)
         (fun x image1 =>
            pixels <- getPixel image1 x y ;;
            setPixel image1 x y (map (fun p => u8 (255 - p)) pixels))
         image0)
    0 H image) as (r & Hr & Hshape & Hpix).
  - split; [apply same_shape_refl |]. intros x' y'. compare_cases.
  - intros y s Hy (Hs & Hrow).
    assert (HW : getWidth s = W) by apply Hs.
    assert (HH : getHeight s = H) by apply Hs.
    rewrite HW.
    destruct (for_rule
      (fun x t =>
         same_shape t image /\
         forall x' y', pixelAt t x' y' =
           if ((0 <=? x') && (x' <? W) && (0 <=? y') && (y' <? y))
              || ((y' =? y) && (0 <=? x') && (x' <? x))
           then inverted (pixelAt image x' y') else pixelAt image x' y')
      (fun x image1 =>
         pixels <- getPixel image1 x y ;;
         setPixel image1 x y (map (fun p => u8 (255 - p)) pixels))
      0 W s) as (t & Ht & Htshape & Htpix).
    + split; [exact Hs |]. intros x' y'. rewrite Hrow. compare_cases.
    + intros x t Hx (Hts & Htrow).
      assert (HtW : getWidth t = W) by apply Hts.
      assert (HtH : getHeight t = H) by apply Hts.
      rewrite getPixel_ok by lia. cbn [bind].
      destruct (setPixel_shape t x y (map (fun p => u8 (255 - p)) (pixelAt t x y)))
        as (t' & Hset & Hshape' & Hpix'); [lia | lia |].
      exists t'. split; [exact Hset |]. split.
      * unfold same_shape in *. intuition congruence.
      * intros x' y'. rewrite Hpix'. rewrite (Htrow x y), (Htrow x' y').
        unfold inverted. compare_cases; subst; reflexivity.
    + exists t. split; [exact Ht |]. split; [exact Htshape |].
      intros x' y'. rewrite Htpix. compare_cases.
  - exists r. split; [exact Hr |]. split; [exact Hshape |].
    intros x' y'. rewrite Hpix. unfold in_bounds. fold W H. compare_cases.
Qed.

Lemma u8_byte (v : Z) : 0 <= v < 256 -> u8 v = v.
Proof. intro H. unfold u8. apply Z.mod_small. change (2 ^ 8) with 256. lia. Qed.

Lemma inverted_twice (p : pixel) :
  Forall (fun v => 0 <= v < 256) p -> inverted (inverted p) = p.
Proof.
  induction 1 as [| v p Hv _ IH]; [reflexivity |].
  change (inverted (inverted (v :: p)))
    with (u8 (255 - u8 (255 - v)) :: inverted (inverted p)).
  rewrite IH. f_equal.
  rewrite (u8_byte (255 - v)) by lia. rewrite u8_byte by lia. lia.
Qed.

Lemma InvertOperation_perform_fires (op : InvertOperation) (image : Image) :
  fires (invert_base op) = true ->
  exists r,
    snd (InvertOperation_perform op image) = Returns (image_ptr, r) /\
    same_shape r image /\
    forall x y, pixelAt r x y =
                if in_bounds image x y then inverted (pixelAt image x y)
                else pixelAt image x y.
Proof.
  intro Hf. apply fires_true in Hf.
  destruct (invert_pixels_spec image) as (r & Hr & Hshape & Hpix).
  exists r. unfold InvertOperation_perform. rewrite Hf. cbn [negb snd].
  rewrite Hr. cbn [bind]. repeat split; try apply Hshape. exact Hpix.
Qed.

(** C8.  Invert applied twice, the gate firing both times, gives back the
    original pixel grid: each call replaces every channel value [v] of every
    pixel by [255 - v], and [255 - (255 - v) = v] on 8-bit values. *)
Theorem InvertOperation_involutive (op : InvertOperation) (image : Image) :
  well_formed image = true ->
  fires (invert_base op) = true ->
  fires (invert_base (fst (InvertOperation_perform op image))) = true ->
  exists once twice,
    snd (InvertOperation_perform op image) = Returns (image_ptr, once) /\
    snd (InvertOperation_perform (fst (InvertOperation_perform op image)) once)
    = Returns (image_ptr, twice) /\
    (forall x y, in_bounds image x y = true ->
                 pixelAt once x y = inverted (pixelAt image x y)) /\
    same_shape twice image /\ same_grid twice image.
Proof.
  intros Hwf Hf1 Hf2.
  destruct (InvertOperation_perform_fires op image Hf1) as (once & H1 & Hs1 & Hp1).
  destruct (InvertOperation_perform_fires _ once Hf2) as (twice & H2 & Hs2 & Hp2).
  exists once, twice. split; [exact H1 |]. split; [exact H2 |].
  assert (Hb : forall x y, in_bounds once x y = in_bounds image x y).
  { intros x y. unfold in_bounds.
    now replace (getWidth once) with (getWidth image) by (symmetry; apply Hs1);
      replace (getHeight once) with (getHeight image) by (symmetry; apply Hs1). }
  split; [| split].
  - intros x y Hin. now rewrite Hp1, Hin.
  - unfold same_shape in *. intuition congruence.
  - split; [| split].
    + transitivity (getWidth once); [apply Hs2 | apply Hs1].
    + transitivity (getHeight once); [apply Hs2 | apply Hs1].
    + intros x y. rewrite Hp2, Hb, Hp1.
      destruct (in_bounds image x y) eqn:Hin; [| reflexivity].
      apply inverted_twice. now apply well_formed_pixel.
Qed.

Lemma InvertOperation_involutive_witness :
  exists once twice,
    snd (InvertOperation_perform (mkInvert (always 1)) image_2x2)
    = Returns (image_ptr, once) /\
    snd (InvertOperation_perform
           (fst (InvertOperation_perform (mkInvert (always 1)) image_2x2)) once)
    = Returns (image_ptr, twice) /\
    (forall x y, in_bounds image_2x2 x y = true ->
                 pixelAt once x y = inverted (pixelAt image_2x2 x y)) /\
    same_shape twice image_2x2 /\ same_grid twice image_2x2.
Proof.
  exact (InvertOperation_involutive (mkInvert (always 1)) image_2x2
           eq_refl eq_refl eq_refl).
Defined.

(** ** Rotate *)

Lemma u64_small (z : Z) : 0 <= z < 2 ^ 64 -> u64 z = z.
Proof. intro H. unfold u64. now apply Z.mod_small. Qed.

Lemma s32_small (z : Z) : - 2 ^ 31 <= z < 2 ^ 31 -> s32 z = z.
Proof. intro H. unfold s32. rewrite Z.mod_small; lia. Qed.

Lemma s64_small (z : Z) : - 2 ^ 63 <= z < 2 ^ 63 -> s64 z = z.
Proof. intro H. unfold s64. rewrite Z.mod_small; lia. Qed.

Lemma rotate_copy_spec (E : Environment) (image temp : Image) (angle : Q) :
  let w := getWidth image in
  let h := getHeight image in
  getWidth temp = w -> getHeight temp = h ->
  exists r,
    rotate_copy E image temp angle w h = Returns r /\ same_shape r temp /\
    forall x y,
      pixelAt r x y =
      if in_bounds image x y then
        let src := rotate_source E angle (Z.quot w 2) (Z.quot h 2) x y in
        if in_bounds image (fst src) (snd src)
        then pixelAt image (fst src) (snd src) else pixelAt temp x y
      else pixelAt temp x y.
Proof.
  intros w h Hw Hh. unfold rotate_copy.
  set (F := fun x y =>
    let src := rotate_source E angle (Z.quot w 2) (Z.quot h 2) x y in
    if in_bounds image (fst src) (snd src)
    then pixelAt image (fst src) (snd src) else pixelAt temp x y).
  destruct (for_rule
    (fun x s =>
       same_shape s temp /\
       forall x' y', pixelAt s x' y' =
         if (0 <=? x') && (x' <? x) && (0 <=? y') && (y' <? h)
         then F x' y' else pixelAt temp x' y')
    (fun x temp0 =>
       for_ 0 h
         (fun y temp1 =>
            let (xs, ys) := rotate_source E angle (Z.quot w 2) (Z.quot h 2) x y in
            if (0 <=? xs) && (xs <? w) && (0 <=? ys) && (ys <? h) then
              p <- getPixel image xs ys ;; setPixel temp1 x y p
            else Returns temp1)
         temp0)
    0 w temp) as (r & Hr & Hshape & Hpix).
  - split; [apply same_shape_refl |]. intros x' y'. compare_cases.
  - intros x s Hx (Hs & Hcol).
    destruct (for_rule
      (fun y t =>
         same_shape t temp /\
         forall x' y', pixelAt t x' y' =
           if ((0 <=? x') && (x' <? x) && (0 <=? y') && (y' <? h))
              || ((x' =? x) && (0 <=? y') && (y' <? y))
           then F x' y' else pixelAt temp x' y')
      (fun y temp1 =>
         let (xs, ys) := rotate_source E angle (Z.quot w 2) (Z.quot h 2) x y in
         if (0 <=? xs) && (xs <? w) && (0 <=? ys) && (ys <? h) then
           p <- getPixel image xs ys ;; setPixel temp1 x y p
         else Returns temp1)
      0 h s) as (t & Ht & Htshape & Htpix).
    + split; [exact Hs |]. intros x' y'. rewrite Hcol. compare_cases.
    + intros y t Hy (Hts & Htcol).
      assert (HF : F x y =
        let src := rotate_source E angle (Z.quot w 2) (Z.quot h 2) x y in
        if in_bounds image (fst src) (snd src)
        then pixelAt image (fst src) (snd src) else pixelAt temp x y)
        by reflexivity.
      destruct (rotate_source E angle (Z.quot w 2) (Z.quot h 2) x y) as [xs ys].
      cbn [fst snd] in HF. cbv zeta in HF. unfold in_bounds in HF.
      fold w h in HF.
      destruct ((0 <=? xs) && (xs <? w) && (0 <=? ys) && (ys <? h)) eqn:Hin.
      * assert (Hin' : in_bounds image xs ys = true) by exact Hin.
        apply in_bounds_iff in Hin'.
        rewrite getPixel_ok by apply Hin'. cbn [bind].
        destruct (setPixel_shape t x y (pixelAt image xs ys))
          as (t' & Hset & Hshape' & Hpix').
        { replace (getWidth t) with w; [lia |]. symmetry.
          transitivity (getWidth temp); [apply Hts | exact Hw]. }
        { replace (getHeight t) with h; [lia |]. symmetry.
          transitivity (getHeight temp); [apply Hts | exact Hh]. }
        exists t'. split; [exact Hset |]. split.
        { unfold same_shape in *. intuition congruence. }
        intros x' y'. rewrite Hpix', Htcol.
        compare_cases; subst; symmetry; exact HF.
      * exists t. split; [reflexivity |]. split; [exact Hts |].
        intros x' y'. rewrite Htcol.
        assert (Hxy : pixelAt temp x y = F x y) by (symmetry; exact HF).
        compare_cases; subst; replace y' with y by lia; exact Hxy.
    + exists t. split; [exact Ht |]. split; [exact Htshape |].
      intros x' y'. rewrite Htpix. compare_cases.
  - exists r. split; [exact Hr |]. split; [exact Hshape |].
    intros x' y'.
    change (pixelAt r x' y' =
            if in_bounds image x' y' then F x' y' else pixelAt temp x' y').
    rewrite Hpix. unfold in_bounds. fold w h. compare_cases.
Qed.

Lemma Qfloor_half (z : Z) : Qfloor (inject_Z z + (1 # 2)) = z.
Proof.
  unfold Qfloor, Qplus, inject_Z. cbn.
  symmetry. apply (Z.div_unique _ _ _ 1); lia.
Qed.

Lemma Qceiling_half (z : Z) : Qceiling (inject_Z z - (1 # 2)) = z.
Proof.
  unfold Qceiling, Qfloor, Qminus, Qplus, Qopp, inject_Z. cbn.
  assert (H : (- (z * 2 + -1)) / 2 = - z)
    by (symmetry; apply (Z.div_unique _ _ _ 1); lia).
  lia.
Qed.

Lemma Qround_away_inject (q : Q) (z : Z) :
  (q == inject_Z z)%Q -> Qround_away q = z.
Proof.
  intro H. unfold Qround_away. destruct (Qle_bool 0 q); rewrite H.
  - apply Qfloor_half.
  - apply Qceiling_half.
Qed.

(** With [cos] equal to 1 and [sin] equal to 0 the source coordinate of a
    pixel is the pixel itself. *)
Lemma rotate_source_identity (E : Environment) (angle : Q) (hw hh x y : Z) :
  (libm_cos E angle == 1)%Q -> (libm_sin E angle == 0)%Q ->
  - 2 ^ 31 <= x < 2 ^ 31 -> - 2 ^ 31 <= y < 2 ^ 31 ->
  rotate_source E angle hw hh x y = (x, y).
Proof.
  intros Hc Hs Hx Hy. unfold rotate_source. f_equal.
  - rewrite (Qround_away_inject _ x); [now apply s32_small |].
    rewrite Hc, Hs. unfold Z.sub. rewrite !inject_Z_plus, !inject_Z_opp. ring.
  - rewrite (Qround_away_inject _ y); [now apply s32_small |].
    rewrite Hc, Hs. unfold Z.sub. rewrite !inject_Z_plus, !inject_Z_opp. ring.
Qed.

(** What a rotation that fires does, at any angle: a destination pixel is
    the source pixel at its source coordinate when that coordinate is inside
    the image, and keeps the value of an unset pixel otherwise. *)
Lemma RotateOperation_perform_fires
    (E : Environment) (op : RotateOperation) (image : Image) :
  fires (rotate_base op) = true ->
  0 <= getWidth image < 2 ^ 31 -> 0 <= getHeight image < 2 ^ 31 ->
  exists result,
    snd (RotateOperation_perform E op image) = Returns (image_ptr, result) /\
    getWidth result = getWidth image /\ getHeight result = getHeight image /\
    forall x y, in_bounds image x y = true ->
      pixelAt result x y =
      let src := source_of E op image x y in
      if in_bounds image (fst src) (snd src)
      then pixelAt image (fst src) (snd src)
      else unset_pixel E (default_pixel_size E).
Proof.
  intros Hf HW HH. apply fires_true in Hf.
  unfold RotateOperation_perform, source_of, drawn_degree. rewrite Hf.
  cbn [negb].
  destruct (uniform_random_number_between _ _ _) as [degree base].
  cbn [snd fst].
  rewrite !s32_small by lia. rewrite !u64_small by lia.
  destruct (rotate_copy_spec E image
              (Image2 E (getWidth image) (getHeight image))
              (degree * PI / (180 # 1))%Q eq_refl eq_refl)
    as (r & Hr & Hshape & Hpix).
  exists r. rewrite Hr. cbn [bind]. split; [reflexivity |].
  split; [apply Hshape | split; [apply Hshape |]].
  intros x y Hin. rewrite Hpix, Hin. reflexivity.
Qed.

(** C6.  A rotation whose drawn angle is 0 degrees (as it is when
    [min_rotate = max_rotate = 0]): the source coordinate of every
    destination pixel is the pixel itself, so the result has the pixel of
    the source image at every destination pixel whose source coordinate is
    inside the image; and a destination pixel whose source coordinate is
    outside the image has the value of an unset pixel. *)
Theorem RotateOperation_zero_degrees
    (E : Environment) (op : RotateOperation) (image : Image) :
  (forall a, a == 0 -> libm_cos E a == 1)%Q ->
  (forall a, a == 0 -> libm_sin E a == 0)%Q ->
  fires (rotate_base op) = true ->
  (drawn_degree op == 0)%Q ->
  0 <= getWidth image < 2 ^ 31 -> 0 <= getHeight image < 2 ^ 31 ->
  exists result,
    snd (RotateOperation_perform E op image) = Returns (image_ptr, result) /\
    getWidth result = getWidth image /\ getHeight result = getHeight image /\
    forall x y, in_bounds image x y = true ->
      let src := source_of E op image x y in
      src = (x, y) /\
      (in_bounds image (fst src) (snd src) = true ->
       pixelAt result x y = pixelAt image x y) /\
      (in_bounds image (fst src) (snd src) = false ->
       pixelAt result x y = unset_pixel E (default_pixel_size E)).
Proof.
  intros Hcos Hsin Hf Hdeg HW HH.
  destruct (RotateOperation_perform_fires E op image Hf HW HH)
    as (result & Hres & Hw & Hh & Hpix).
  exists result. split; [exact Hres |]. split; [exact Hw |]. split; [exact Hh |].
  intros x y Hin src.
  assert (Hangle : (drawn_degree op * PI / (180 # 1) == 0)%Q)
    by (rewrite Hdeg; reflexivity).
  assert (Hsrc : src = (x, y)).
  { apply in_bounds_iff in Hin. unfold src, source_of.
    apply rotate_source_identity; [now apply Hcos | now apply Hsin | lia | lia]. }
  split; [exact Hsrc |].
  specialize (Hpix x y Hin). cbv zeta in Hpix. fold src in Hpix.
  split; intro Hb; rewrite Hb in Hpix; rewrite Hpix; [| reflexivity].
  now rewrite Hsrc.
Qed.

Lemma RotateOperation_zero_degrees_witness :
  exists result,
    snd (RotateOperation_perform sample_environment
           (mkRotate (always 1) (mkRotateRange 0 0)) image_2x2)
    = Returns (image_ptr, result) /\
    forall x y, in_bounds image_2x2 x y = true ->
                pixelAt result x y = pixelAt image_2x2 x y.
Proof.
  assert (Hcos : (forall a, a == 0 -> libm_cos sample_environment a == 1)%Q)
    by (intros a Ha; cbn; rewrite Ha; reflexivity).
  assert (Hsin : (forall a, a == 0 -> libm_sin sample_environment a == 0)%Q)
    by (intros a Ha; exact Ha).
  destruct (RotateOperation_zero_degrees sample_environment
              (mkRotate (always 1) (mkRotateRange 0 0)) image_2x2
              Hcos Hsin eq_refl eq_refl)
    as (result & Hres & _ & _ & Hpix); [cbn; lia | cbn; lia |].
  exists result. split; [exact Hres |].
  intros x y Hin. destruct (Hpix x y Hin) as (Hsrc & Hcopy & _).
  apply Hcopy. rewrite Hsrc. exact Hin.
Defined.

(** ** RandomErase *)

(** Apply the rule of the [for] loop to the outermost loop of the goal. *)
Ltac loop_with Inv r Hr HI :=
  match goal with
  | |- context [for_ ?lo ?hi ?body ?s] =>
      destruct (for_rule Inv body lo hi s) as (r & Hr & HI);
      [ | | try rewrite Hr ]
  end.

Lemma noise_pixel_generator (n : nat) (noise : UniformDistributionGenerator Z) :
  snd (noise_pixel n noise) =
  mkGenerator (values noise) (drawn noise + n).
Proof.
  revert noise. induction n as [| n IH]; intro noise; cbn [noise_pixel].
  - cbn. destruct noise as [v d]. cbn. f_equal. lia.
  - unfold draw.
    specialize (IH (mkGenerator (values noise) (S (drawn noise)))).
    destruct (noise_pixel n (mkGenerator (values noise) (S (drawn noise))))
      as [vs g]. cbn [snd] in *. rewrite IH. cbn. f_equal. lia.
Qed.

Lemma erase_fill_spec (image : Image) (noise : UniformDistributionGenerator Z)
    (left top : Z) (size : image_size) :
  0 <= left -> 0 <= top -> 0 <= width size -> 0 <= height size ->
  left + width size <= getWidth image -> top + height size <= getHeight image ->
  getWidth image < 2 ^ 64 -> getHeight image < 2 ^ 64 ->
  0 <= getPixelSize image ->
  exists noise' result,
    erase_fill image noise left top size = Returns (noise', result) /\
    same_shape result image /\
    noise' = mkGenerator (values noise)
               (drawn noise
                + Z.to_nat (width size * height size * getPixelSize image)) /\
    forall x y,
      pixelAt result x y =
      if inside left top size x y
      then noise_at noise (getPixelSize image) left top size x y
      else pixelAt image x y.
Proof.
  intros Hl Ht Hw Hh HW HH HW64 HH64 Hps. unfold erase_fill.
  rewrite !u64_small by lia.
  set (ps := getPixelSize image) in *.
  set (ew := width size) in *. set (eh := height size) in *.
  loop_with
    (fun i (st : UniformDistributionGenerator Z * Image) =>
       same_shape (snd st) image /\
       fst st = mkGenerator (values noise)
                  (drawn noise + Z.to_nat ((i - left) * eh * ps)) /\
       forall x y,
         pixelAt (snd st) x y =
         if (left <=? x) && (x <? i) && (top <=? y) && (y <? top + eh)
         then noise_at noise ps left top size x y else pixelAt image x y)
    r Hr HI.
  - cbn [fst snd]. split; [apply same_shape_refl |]. split.
    + destruct noise as [v d]. cbn. f_equal.
      replace ((left - left) * eh * ps) with 0 by ring. cbn. lia.
    + intros x y. compare_cases.
  - intros i [g s] Hi (Hs & Hg & Hpix). cbn [fst snd] in *.
    loop_with
      (fun j (st : UniformDistributionGenerator Z * Image) =>
         same_shape (snd st) image /\
         fst st = mkGenerator (values noise)
                    (drawn noise
                     + Z.to_nat (((i - left) * eh + (j - top)) * ps)) /\
         forall x y,
           pixelAt (snd st) x y =
           if ((left <=? x) && (x <? i) && (top <=? y) && (y <? top + eh))
              || ((x =? i) && (top <=? y) && (y <? j))
           then noise_at noise ps left top size x y else pixelAt image x y)
      r2 Hr2 HI2.
    + cbn [fst snd]. split; [exact Hs |]. split.
      * rewrite Hg. f_equal. f_equal. f_equal. ring.
      * intros x y. rewrite Hpix. compare_cases.
    + intros j [g2 s2] Hj (Hs2 & Hg2 & Hpix2). cbn [fst snd] in *.
      assert (Hgen := noise_pixel_generator (Z.to_nat ps) g2).
      assert (Hval : fst (noise_pixel (Z.to_nat ps) g2)
                     = noise_at noise ps left top size i j)
        by (unfold noise_at; rewrite Hg2; reflexivity).
      destruct (noise_pixel (Z.to_nat ps) g2) as [new_pixel g3].
      cbn [fst snd] in Hgen, Hval.
      destruct (setPixel_shape s2 i j new_pixel) as (s3 & Hset & Hs3 & Hpix3).
      { replace (getWidth s2) with (getWidth image) by (symmetry; apply Hs2). lia. }
      { replace (getHeight s2) with (getHeight image) by (symmetry; apply Hs2). lia. }
      rewrite Hset. cbn [bind]. eexists. split; [reflexivity |].
      cbn [fst snd]. split; [| split].
      * unfold same_shape in *. intuition congruence.
      * rewrite Hgen, Hg2. cbn [values drawn]. f_equal.
        assert (0 <= (i - left) * eh) by nia.
        replace (((i - left) * eh + (j + 1 - top)) * ps)
          with (((i - left) * eh + (j - top)) * ps + ps) by ring.
        rewrite Z2Nat.inj_add by nia. lia.
      * intros x y. rewrite Hpix3, Hpix2, Hval.
        compare_cases; subst; reflexivity.
    + destruct HI2 as (Hs2 & Hg2 & Hpix2). destruct r2 as [g2 s2].
      cbn [fst snd] in *. eexists. split; [reflexivity |]. cbn [fst snd].
      split; [exact Hs2 |]. split.
      * rewrite Hg2. f_equal. f_equal. f_equal.
        replace (Z.max top (top + eh)) with (top + eh) by lia. ring.
      * intros x y. rewrite Hpix2. compare_cases.
  - destruct HI as (Hs & Hg & Hpix). destruct r as [g s]. cbn [fst snd] in *.
    exists g, s. split; [reflexivity |]. split; [exact Hs |]. split.
    + rewrite Hg. f_equal. f_equal. f_equal.
      replace (Z.max left (left + ew)) with (left + ew) by lia. ring.
    + intros x y. rewrite Hpix. unfold inside. fold ew eh. compare_cases.
Qed.

Lemma uniform_random_number_eq (o : Operation) :
  uniform_random_number o =
  (next_draw o,
   mkOperation (probability o)
     (mkGenerator (values (generator o)) (S (drawn (generator o))))).
Proof. reflexivity. Qed.

(** Scaling a size by a unit factor and truncating stays within the size. *)
Lemma Qtrunc_scale (d : Z) (f : Q) :
  0 <= d -> (0 <= f < 1)%Q -> 0 <= Qtrunc (inject_Z d * f) <= d.
Proof.
  intros Hd [Hlo Hhi]. destruct f as [nf df].
  unfold Qle, Qlt in *. cbn in Hlo, Hhi.
  unfold Qtrunc, Qmult, inject_Z. cbn [Qnum Qden].
  change (1 * df)%positive with df.
  assert (Hn : 0 <= nf) by lia.
  assert (Hlt : nf < Z.pos df) by lia.
  rewrite Z.quot_div_nonneg by nia.
  split.
  - apply Z.div_pos; nia.
  - apply Z.div_le_upper_bound; nia.
Qed.

Lemma erase_size_of_bounds (image : Image) (lower upper : image_size) (f : Q) :
  (0 <= f < 1)%Q ->
  0 <= height lower <= height upper -> 0 <= width lower <= width upper ->
  0 <= getWidth image < 2 ^ 63 -> 0 <= getHeight image < 2 ^ 63 ->
  let H := getHeight image in
  let W := getWidth image in
  let size := erase_size_of image lower upper f in
  height size =
    Z.min H (height lower)
    + Qtrunc (inject_Z (Z.min H (height upper) - Z.min H (height lower)) * f) /\
  width size =
    Z.min W (width lower)
    + Qtrunc (inject_Z (Z.min W (width upper) - Z.min W (width lower)) * f) /\
  Z.min H (height lower) <= height size <= Z.min H (height upper) /\
  Z.min W (width lower) <= width size <= Z.min W (width upper).
Proof.
  intros Hf Hh Hw HW HH H W size.
  unfold size, erase_size_of. cbn [height width]. fold H W.
  assert (Hth := Qtrunc_scale
            (Z.min H (height upper) - Z.min H (height lower)) f ltac:(lia) Hf).
  assert (Htw := Qtrunc_scale
            (Z.min W (width upper) - Z.min W (width lower)) f ltac:(lia) Hf).
  rewrite (u64_small (Z.min H (height upper) - Z.min H (height lower))) by lia.
  rewrite (u64_small (Z.min W (width upper) - Z.min W (width lower))) by lia.
  rewrite !(u64_small (Qtrunc _)) by lia.
  rewrite !u64_small by lia.
  lia.
Qed.



(** ** The accumulator *)

Lemma u64_add_l (a b : Z) : u64 (u64 a + b) = u64 (a + b).
Proof. unfold u64. apply Zplus_mod_idemp_l. Qed.

Lemma u64_sub_l (a b : Z) : u64 (u64 a - b) = u64 (a - b).
Proof. unfold u64. apply Zminus_mod_idemp_l. Qed.

Lemma s64_u64 (z : Z) : s64 (u64 z) = s64 z.
Proof. unfold s64, u64. now rewrite Zplus_mod_idemp_l. Qed.

Lemma hd_skipn (a : nat) (px : pixel) : hd 0 (skipn a px) = nth a px 0.
Proof.
  revert px. induction a as [| a IH]; intros [| v px]; cbn; try reflexivity.
  apply IH.
Qed.

Lemma tl_skipn (a : nat) (px : pixel) : tl (skipn a px) = skipn (S a) px.
Proof.
  revert px. induction a as [| a IH]; intros [| v px]; try reflexivity.
  change (tl (skipn a px) = skipn (S a) px). apply IH.
Qed.

Lemma accumulator_add_seq (f : nat -> Z) (px : pixel) (n a : nat) :
  accumulator_add (map f (seq a n)) (skipn a px) =
  map (fun c => u64 (f c + nth c px 0)) (seq a n).
Proof.
  revert a. induction n as [| n IH]; intro a; cbn [seq map accumulator_add].
  - reflexivity.
  - rewrite hd_skipn, tl_skipn, IH. reflexivity.
Qed.

Lemma accumulator_shift_seq (f : nat -> Z) (del add : pixel) (n a : nat) :
  accumulator_shift (map f (seq a n)) (skipn a del) (skipn a add) =
  map (fun c => u64 (u64 (f c + nth c add 0) - nth c del 0)) (seq a n).
Proof.
  revert a. induction n as [| n IH]; intro a; cbn [seq map accumulator_shift].
  - reflexivity.
  - rewrite !hd_skipn, !tl_skipn, IH. reflexivity.
Qed.

Lemma accumulator_div_seq (f : nat -> Z) (n : nat) (len : Z) :
  len <> 0 ->
  accumulator_div (map f (seq 0 n)) len =
  Returns (map (fun c => u8 (f c / len)) (seq 0 n)).
Proof.
  intro Hlen. unfold accumulator_div.
  destruct (Z.eqb_spec len 0) as [| _]; [contradiction |].
  now rewrite map_map.
Qed.

Lemma accumulator_new_seq (n : Z) :
  accumulator_new n = map (fun _ => 0) (seq 0 (Z.to_nat n)).
Proof.
  unfold accumulator_new. generalize 0%nat.
  induction (Z.to_nat n) as [| m IH]; intro a; cbn; [reflexivity |].
  now rewrite <- IH.
Qed.

Lemma tap_sum_snoc (k : nat) (first : Z) (sample : Z -> Z) :
  tap_sum (S k) first sample =
  tap_sum k first sample + sample (first + Z.of_nat k).
Proof.
  revert first. induction k as [| k IH]; intro first.
  - cbn. replace (first + 0) with first by lia. lia.
  - change (tap_sum (S (S k)) first sample)
      with (sample first + tap_sum (S k) (first + 1) sample).
    rewrite IH. cbn [tap_sum].
    replace (first + 1 + Z.of_nat k) with (first + Z.of_nat (S k)) by lia. lia.
Qed.

Lemma clamp_tap_edge (x0 n : Z) :
  1 <= n < 2 ^ 63 -> x0 < 2 ^ 64 -> clamp_tap x0 n = clamp_to_edge x0 n.
Proof.
  intros Hn Hx. unfold clamp_tap, clamp_to_edge.
  rewrite !u64_small by lia. lia.
Qed.

Lemma accumulator_add_channels (f : nat -> Z) (px : pixel) (n : nat) :
  accumulator_add (map f (seq 0 n)) px =
  map (fun c => u64 (f c + nth c px 0)) (seq 0 n).
Proof. exact (accumulator_add_seq f px n 0). Qed.

Lemma accumulator_shift_channels (f : nat -> Z) (del add : pixel) (n : nat) :
  accumulator_shift (map f (seq 0 n)) del add =
  map (fun c => u64 (u64 (f c + nth c add 0) - nth c del 0)) (seq 0 n).
Proof. exact (accumulator_shift_seq f del add n 0). Qed.

(** ** One scan line of the box blur *)

Lemma box_line_spec (len n ps : Z)
    (get : Z -> outcome pixel) (set : Image -> Z -> pixel -> outcome Image)
    (dst : Image) (line : Z -> pixel) (pos : Z -> Z * Z) :
  1 <= len < 2 ^ 63 -> 1 <= n < 2 ^ 63 ->
  (forall t, 0 <= t < n -> get t = Returns (line t)) ->
  (forall d t p, set d t p = setPixel d (fst (pos t)) (snd (pos t)) p) ->
  (forall t, 0 <= t < n ->
             0 <= fst (pos t) < getWidth dst /\ 0 <= snd (pos t) < getHeight dst) ->
  (forall t t', 0 <= t < n -> 0 <= t' < n -> pos t = pos t' -> t = t') ->
  exists dst',
    box_line len n get set ps dst = Returns dst' /\ same_shape dst' dst /\
    (forall t, 0 <= t < n ->
               pixelAt dst' (fst (pos t)) (snd (pos t)) = box_out len n ps line t) /\
    (forall x y, (forall t, 0 <= t < n -> pos t <> (x, y)) ->
                 pixelAt dst' x y = pixelAt dst x y).
Proof.
  intros Hlen Hn Hget Hset Hpos Hinj. unfold box_line.
  set (h := len / 2).
  assert (Hh : 0 <= h < 2 ^ 62).
  { unfold h. split; [apply Z.div_pos; lia |].
    apply Z.div_lt_upper_bound; lia. }
  rewrite s64_u64, s64_small by lia.
  rewrite (u64_small (h + 1)) by lia.
  rewrite accumulator_new_seq.
  set (chan := fun (c : nat) (t : Z) => nth c (line (clamp_to_edge t n)) 0).
  set (chans := seq 0 (Z.to_nat ps)).
  (* the first window *)
  loop_with
    (fun k (st : accumulator * Z * Image) =>
       let '(acc, y0, d) := st in
       acc = map (fun c => u64 (tap_sum (Z.to_nat k) (- h) (chan c))) chans /\
       y0 = - h + k /\ same_shape d dst /\
       (forall x y, pos 0 <> (x, y) -> pixelAt d x y = pixelAt dst x y) /\
       (1 <= k ->
        pixelAt d (fst (pos 0)) (snd (pos 0)) =
        map (fun c => u8 (u64 (tap_sum (Z.to_nat k) (- h) (chan c)) / len)) chans))
    r1 Hr1 HI1.
  - split; [reflexivity |]. split; [lia |]. split; [apply same_shape_refl |].
    split; [reflexivity | lia].
  - intros k [[acc y0] d] Hk (Hacc & Hy & Hs & Hframe & _).
    rewrite clamp_tap_edge by lia.
    rewrite Hget by (unfold clamp_to_edge; lia). cbn [bind].
    subst acc.
    unfold chans. rewrite accumulator_add_channels.
    rewrite accumulator_div_seq by lia. fold chans. cbn [bind]. rewrite Hset.
    destruct (Hpos 0 ltac:(lia)) as [Hx0 Hy0].
    destruct (setPixel_shape d (fst (pos 0)) (snd (pos 0))
                (map (fun c => u8 (u64 (u64 (tap_sum (Z.to_nat k) (- h) (chan c))
                                          + nth c (line (clamp_to_edge y0 n)) 0)
                                    / len)) chans))
      as (d' & Hd' & Hs' & Hpix').
    { replace (getWidth d) with (getWidth dst) by (symmetry; apply Hs). lia. }
    { replace (getHeight d) with (getHeight dst) by (symmetry; apply Hs). lia. }
    rewrite Hd'. cbn [bind]. eexists. split; [reflexivity |].
    assert (Hstep : forall c,
      u64 (u64 (tap_sum (Z.to_nat k) (- h) (chan c))
           + nth c (line (clamp_to_edge y0 n)) 0)
      = u64 (tap_sum (Z.to_nat (k + 1)) (- h) (chan c))).
    { intro c. rewrite u64_add_l. f_equal.
      replace (Z.to_nat (k + 1)) with (S (Z.to_nat k)) by lia.
      rewrite tap_sum_snoc. unfold chan at 3. rewrite Z2Nat.id by lia.
      now rewrite Hy. }
    split; [apply map_ext; exact Hstep |].
    split; [lia |]. split; [unfold same_shape in *; intuition congruence |].
    split.
    + intros x y Hne. rewrite Hpix'.
      destruct (Z.eqb_spec x (fst (pos 0))) as [-> |]; cbn [andb];
        [| now apply Hframe].
      destruct (Z.eqb_spec y (snd (pos 0))) as [-> |]; [| now apply Hframe].
      exfalso. apply Hne. now destruct (pos 0).
    + intros _. rewrite Hpix', !Z.eqb_refl. cbn [andb].
      apply map_ext. intro c. now rewrite Hstep.
  - destruct r1 as [[acc y0] d]. destruct HI1 as (Hacc & _ & Hs & Hframe & Hfirst).
    replace (Z.max 0 len) with len in * by lia.
    specialize (Hfirst ltac:(lia)).
    cbn [bind].
    set (sum := fun (c : nat) (j : nat) =>
                  sliding_sum len n (fun t' => nth c (line t') 0) j).
    (* the sliding steps *)
    loop_with
      (fun j (st : accumulator * Z * Z * Image) =>
         let '(acc, y_del, y_add, d) := st in
         acc = map (fun c => u64 (sum c (Z.to_nat (j - 1)))) chans /\
         y_del = - h + (j - 1) /\ y_add = h + j /\ same_shape d dst /\
         (forall t, 0 <= t < j ->
                    pixelAt d (fst (pos t)) (snd (pos t)) = box_out len n ps line t) /\
         (forall x y, (forall t, 0 <= t < j -> pos t <> (x, y)) ->
                      pixelAt d x y = pixelAt dst x y))
      r2 Hr2 HI2.
    + split; [exact Hacc |]. split; [lia |]. split; [lia |]. split; [exact Hs |].
      split.
      * intros t Ht. replace t with 0 by lia. rewrite Hfirst. reflexivity.
      * intros x y Hne. apply Hframe. apply Hne. lia.
    + intros j [[[acc' y_del] y_add] d'] Hj (Hacc' & Hdel & Hadd & Hs' & Hdone & Hframe').
      rewrite (u64_small (Z.max y_del 0)) by lia.
      rewrite (u64_small (n - 1)) by lia.
      rewrite !Hget by lia. cbn [bind]. subst acc'.
      unfold chans. rewrite accumulator_shift_channels.
      rewrite accumulator_div_seq by lia. fold chans. cbn [bind]. rewrite Hset.
      destruct (Hpos j ltac:(lia)) as [Hxj Hyj].
      destruct (setPixel_shape d' (fst (pos j)) (snd (pos j))
        (map (fun c => u8 (u64 (u64 (u64 (sum c (Z.to_nat (j - 1)))
                                     + nth c (line (Z.min y_add (n - 1))) 0)
                                - nth c (line (Z.max y_del 0)) 0) / len)) chans))
        as (d2 & Hd2 & Hs2 & Hpix2).
      { replace (getWidth d') with (getWidth dst) by (symmetry; apply Hs'). lia. }
      { replace (getHeight d') with (getHeight dst) by (symmetry; apply Hs'). lia. }
      rewrite Hd2. cbn [bind]. eexists. split; [reflexivity |].
      assert (Hstep : forall c,
        u64 (u64 (u64 (sum c (Z.to_nat (j - 1)))
                  + nth c (line (Z.min y_add (n - 1))) 0)
             - nth c (line (Z.max y_del 0)) 0)
        = u64 (sum c (Z.to_nat j))).
      { intro c. rewrite u64_sub_l.
        replace (u64 (sum c (Z.to_nat (j - 1)))
                 + nth c (line (Z.min y_add (n - 1))) 0
                 - nth c (line (Z.max y_del 0)) 0)
          with (u64 (sum c (Z.to_nat (j - 1)))
                + (nth c (line (Z.min y_add (n - 1))) 0
                   - nth c (line (Z.max y_del 0)) 0)) by ring.
        rewrite u64_add_l. f_equal.
        replace (Z.to_nat j) with (S (Z.to_nat (j - 1))) by lia.
        unfold sum. cbn [sliding_sum]. fold h.
        rewrite Z2Nat.id by lia. subst y_del y_add.
        replace (h + 1 + (j - 1)) with (h + j) by lia. ring. }
      split; [replace (j + 1 - 1) with j by lia; apply map_ext; exact Hstep |].
      split; [lia |]. split; [rewrite u64_small by lia; lia |].
      split; [unfold same_shape in *; intuition congruence |].
      split.
      * intros t Ht. rewrite Hpix2.
        destruct (Z.eq_dec t j) as [-> | Hne].
        { rewrite !Z.eqb_refl. cbn [andb]. unfold box_out. fold chans.
          apply map_ext. intro c. now rewrite Hstep. }
        destruct ((fst (pos t) =? fst (pos j)) && (snd (pos t) =? snd (pos j)))
          eqn:Heq.
        { exfalso. apply Hne. apply Hinj; [lia | lia |].
          apply andb_true_iff in Heq. rewrite !Z.eqb_eq in Heq.
          destruct (pos t), (pos j). cbn in Heq. now f_equal. }
        apply Hdone. lia.
      * intros x y Hne. rewrite Hpix2.
        destruct ((x =? fst (pos j)) && (y =? snd (pos j))) eqn:Heq.
        { exfalso. apply (Hne j ltac:(lia)).
          apply andb_true_iff in Heq. rewrite !Z.eqb_eq in Heq.
          destruct (pos j). cbn in Heq. now f_equal. }
        apply Hframe'. intros t Ht. apply Hne. lia.
    + destruct r2 as [[[acc' y_del] y_add] d']. cbn [bind].
      destruct HI2 as (_ & _ & _ & Hs' & Hdone & Hframe').
      replace (Z.max 1 n) with n in * by lia.
      exists d'. split; [reflexivity |]. repeat split; try apply Hs'; assumption.
Qed.

(** ** The two passes of the box blur *)

Lemma box_blur_spec (E : Environment) (len : Z) (image : Image) :
  1 <= len < 2 ^ 63 ->
  1 <= getWidth image < 2 ^ 63 -> 1 <= getHeight image < 2 ^ 63 ->
  exists transient r,
    box_blur E len image = Returns r /\ same_shape r image /\
    (forall x y, in_bounds image x y = true ->
       pixelAt transient x y =
       box_out len (getHeight image) (getPixelSize image)
         (fun y' => pixelAt image x y') y) /\
    (forall x y, in_bounds image x y = true ->
       pixelAt r x y =
       box_out len (getWidth image) (getPixelSize image)
         (fun x' => pixelAt transient x' y) x) /\
    (forall x y, in_bounds image x y = false -> pixelAt r x y = pixelAt image x y).
Proof.
  intros Hlen HW HH. unfold box_blur.
  set (W := getWidth image) in *. set (H := getHeight image) in *.
  set (ps := getPixelSize image).
  set (blank := Image4 E W H ps (getColorSpace image)).
  assert (Hblank : same_shape blank image) by (repeat split).
  (* along the height, into the transient *)
  loop_with
    (fun i t =>
       same_shape t image /\
       forall x y,
         pixelAt t x y =
         if (0 <=? x) && (x <? i) && (0 <=? y) && (y <? H)
         then box_out len H ps (fun y' => pixelAt image x y') y
         else pixelAt blank x y)
    transient Ht HIt.
  - split; [exact Hblank |]. intros x y. compare_cases.
  - intros i t Hi (Hs & Hpix).
    destruct (box_line_spec len H ps
                (fun y => getPixel image i y) (fun t j p => setPixel t i j p)
                t (fun y' => pixelAt image i y') (fun y => (i, y)))
      as (t' & Hline & Hs' & Hdone & Hframe); try lia.
    + intros y Hy. apply getPixel_ok; lia.
    + reflexivity.
    + intros y Hy. cbn [fst snd].
      replace (getWidth t) with W by (symmetry; apply Hs).
      replace (getHeight t) with H by (symmetry; apply Hs). lia.
    + intros y y' _ _ Heq. now inversion Heq.
    + cbn [fst snd] in Hdone.
      exists t'. split; [exact Hline |]. split.
      * unfold same_shape in *. intuition congruence.
      * intros x y.
        destruct (Z.eq_dec x i) as [-> | Hx].
        { destruct ((0 <=? y) && (y <? H)) eqn:Hy.
          - apply andb_true_iff in Hy. rewrite Z.leb_le, Z.ltb_lt in Hy.
            rewrite (Hdone y) by lia. compare_cases.
          - rewrite Hframe, Hpix.
            + revert Hy. compare_cases; discriminate.
            + intros y' Hy' Heq. inversion Heq. subst y'.
              revert Hy. compare_cases; discriminate. }
        rewrite Hframe, Hpix by (intros y' _ Heq; inversion Heq; lia).
        compare_cases.
  - destruct HIt as (Hts & Htpix). cbn [bind].
    replace (Z.max 0 W) with W in Htpix by lia.
    (* along the width, back into the image *)
    loop_with
      (fun j s =>
         same_shape s image /\
         forall x y,
           pixelAt s x y =
           if (0 <=? y) && (y <? j) && (0 <=? x) && (x <? W)
           then box_out len W ps (fun x' => pixelAt transient x' y) x
           else pixelAt image x y)
      r Hr HIr.
    + split; [apply same_shape_refl |]. intros x y. compare_cases.
    + intros j s Hj (Hs & Hpix).
      destruct (box_line_spec len W ps
                  (fun x => getPixel transient x j) (fun im i p => setPixel im i j p)
                  s (fun x' => pixelAt transient x' j) (fun x => (x, j)))
        as (s' & Hline & Hs' & Hdone & Hframe); try lia.
      * intros x Hx. apply getPixel_ok.
        -- replace (getWidth transient) with W by (symmetry; apply Hts). lia.
        -- replace (getHeight transient) with H by (symmetry; apply Hts). lia.
      * reflexivity.
      * intros x Hx. cbn [fst snd].
        replace (getWidth s) with W by (symmetry; apply Hs).
        replace (getHeight s) with H by (symmetry; apply Hs). lia.
      * intros x x' _ _ Heq. now inversion Heq.
      * cbn [fst snd] in Hdone.
        replace (getWidth s) with W by (symmetry; apply Hs).
        exists s'. split; [exact Hline |]. split.
        -- unfold same_shape in *. intuition congruence.
        -- intros x y.
           destruct (Z.eq_dec y j) as [-> | Hy].
           { destruct ((0 <=? x) && (x <? W)) eqn:Hx.
             - apply andb_true_iff in Hx. rewrite Z.leb_le, Z.ltb_lt in Hx.
               rewrite (Hdone x) by lia. compare_cases.
             - rewrite Hframe, Hpix.
               + revert Hx. compare_cases; discriminate.
               + intros x' Hx' Heq. inversion Heq. subst x'.
                 revert Hx. compare_cases; discriminate. }
           rewrite Hframe, Hpix by (intros x' _ Heq; inversion Heq; lia).
           compare_cases.
    + destruct HIr as (Hrs & Hrpix).
      replace (Z.max 0 H) with H in Hrpix by lia.
      exists transient, r. split; [reflexivity |]. split; [exact Hrs |].
      split; [| split].
      * intros x y Hin. apply in_bounds_iff in Hin. fold W H in Hin.
        rewrite Htpix. compare_cases.
      * intros x y Hin. apply in_bounds_iff in Hin. fold W H in Hin.
        rewrite Hrpix. compare_cases.
      * intros x y Hout. rewrite Hrpix. revert Hout. unfold in_bounds.
        fold W H. compare_cases; discriminate.
Qed.

(** ** Flat fields under the box blur *)

Lemma tap_sum_constant (k : nat) (first c : Z) (sample : Z -> Z) :
  (forall t, sample t = c) -> tap_sum k first sample = Z.of_nat k * c.
Proof.
  intro Hc. revert first. induction k as [| k IH]; intro first.
  - reflexivity.
  - cbn [tap_sum]. rewrite Hc, IH. lia.
Qed.

Lemma sliding_sum_constant (len n c : Z) (line : Z -> Z) (j : nat) :
  0 <= len -> 1 <= n -> Z.of_nat j < n ->
  (forall t, 0 <= t < n -> line t = c) ->
  sliding_sum len n line j = len * c.
Proof.
  intros Hlen Hn Hj Hc. induction j as [| j IH].
  - cbn [sliding_sum]. rewrite (tap_sum_constant _ _ c).
    + now rewrite Z2Nat.id.
    + intro t. apply Hc. unfold clamp_to_edge. lia.
  - cbn [sliding_sum]. rewrite IH by lia.
    assert (0 <= len / 2) by (apply Z.div_pos; lia).
    rewrite !Hc by lia. lia.
Qed.

Lemma map_nth_seq (p : pixel) :
  map (fun c => nth c p 0) (seq 0 (List.length p)) = p.
Proof.
  induction p as [| v p IH]; [reflexivity |].
  cbn [List.length seq map nth]. f_equal.
  rewrite <- seq_shift, map_map. exact IH.
Qed.

Lemma nth_byte (p : pixel) (c : nat) :
  Forall (fun v => 0 <= v < 256) p -> 0 <= nth c p 0 < 256.
Proof.
  intro Hp. destruct (Nat.lt_ge_cases c (List.length p)) as [Hc | Hc].
  - rewrite Forall_forall in Hp. apply Hp. now apply nth_In.
  - rewrite nth_overflow by exact Hc. lia.
Qed.

(** On a line whose pixels all are [p], the sliding window writes [p]. *)
Lemma box_out_constant (len n ps : Z) (line : Z -> pixel) (p : pixel) (t : Z) :
  1 <= len < 2 ^ 55 -> 1 <= n -> 0 <= t < n ->
  (forall t', 0 <= t' < n -> line t' = p) ->
  Z.of_nat (List.length p) = ps -> Forall (fun v => 0 <= v < 256) p ->
  box_out len n ps line t = p.
Proof.
  intros Hlen Hn Ht Hline Hps Hp. unfold box_out.
  rewrite <- Hps, Nat2Z.id. rewrite <- (map_nth_seq p) at 2.
  apply map_ext. intro c.
  rewrite (sliding_sum_constant len n (nth c p 0)); try lia.
  - assert (Hb := nth_byte p c Hp).
    rewrite u64_small by (change (2 ^ 64) with (2 ^ 55 * 512); nia).
    rewrite Z.mul_comm, Z.div_mul by lia. now apply u8_byte.
  - intros t' Ht'. now rewrite Hline.
Qed.

Lemma box_blur_constant (E : Environment) (len : Z) (image : Image) (p : pixel) :
  1 <= len < 2 ^ 55 ->
  1 <= getWidth image < 2 ^ 63 -> 1 <= getHeight image < 2 ^ 63 ->
  constant_image p image ->
  Z.of_nat (List.length p) = getPixelSize image ->
  Forall (fun v => 0 <= v < 256) p ->
  exists r,
    box_blur E len image = Returns r /\ same_shape r image /\
    constant_image p r.
Proof.
  intros Hlen HW HH Hconst Hps Hp.
  destruct (box_blur_spec E len image) as (transient & r & Hr & Hs & Ht & Hpix & _);
    try lia.
  exists r. split; [exact Hr |]. split; [exact Hs |].
  intros x y Hin.
  assert (Hin' : in_bounds image x y = true).
  { unfold in_bounds in *.
    now replace (getWidth image) with (getWidth r) by apply Hs;
      replace (getHeight image) with (getHeight r) by apply Hs. }
  rewrite (Hpix x y Hin'). apply in_bounds_iff in Hin'.
  apply box_out_constant; try lia; try assumption.
  intros x' Hx'.
  rewrite Ht by (apply in_bounds_iff; lia).
  apply box_out_constant; try lia; try assumption.
  intros y' Hy'. apply Hconst. apply in_bounds_iff. lia.
Qed.

(** ** Flat fields under the Gaussian blur *)




Lemma scaled_ext (val : list Q) (p : pixel) (s s' : Q) :
  (s == s')%Q ->
  Forall2 (fun v x => v == inject_Z x * s)%Q val p ->
  Forall2 (fun v x => v == inject_Z x * s')%Q val p.
Proof.
  intros Hs. induction 1 as [| v x val p Hv _ IH]; constructor.
  - rewrite Hv, Hs. reflexivity.
  - exact IH.
Qed.







(** ** The sliding window and the direct convolution *)

Lemma tap_sum_shift (k : nat) (a : Z) (f : Z -> Z) :
  tap_sum k (a + 1) f = tap_sum k a f + f (a + Z.of_nat k) - f a.
Proof.
  assert (H := tap_sum_snoc k a f). cbn [tap_sum] in H. lia.
Qed.

Lemma tap_sum_ext (k : nat) (a : Z) (f g : Z -> Z) :
  (forall t, f t = g t) -> tap_sum k a f = tap_sum k a g.
Proof.
  intro H. revert a. induction k as [| k IH]; intro a; cbn [tap_sum].
  - reflexivity.
  - now rewrite H, IH.
Qed.

Lemma tap_sum_bounds (k : nat) (a : Z) (f : Z -> Z) :
  (forall t, 0 <= f t < 256) -> 0 <= tap_sum k a f <= 255 * Z.of_nat k.
Proof.
  intro H. revert a. induction k as [| k IH]; intro a; cbn [tap_sum].
  - lia.
  - specialize (H a). specialize (IH (a + 1)). lia.
Qed.

(** For an odd length the sums of the sliding window are the sums over the
    window centred on the output position. *)
Lemma sliding_sum_odd (len n : Z) (line : Z -> Z) (j : nat) :
  Z.odd len = true -> 1 <= len -> 1 <= n -> Z.of_nat j < n ->
  sliding_sum len n line j =
  tap_sum (Z.to_nat len) (Z.of_nat j - len / 2)
    (fun t => line (clamp_to_edge t n)).
Proof.
  intros Hodd Hlen Hn Hj.
  assert (Hhalf : len = 2 * (len / 2) + 1).
  { assert (Hm := Zmod_odd len). rewrite Hodd in Hm.
    assert (Hd := Z.div_mod len 2 ltac:(lia)). lia. }
  assert (Hh : 0 <= len / 2) by (apply Z.div_pos; lia).
  induction j as [| j IH].
  - reflexivity.
  - cbn [sliding_sum]. rewrite IH by lia.
    replace (Z.of_nat (S j) - len / 2) with (Z.of_nat j - len / 2 + 1) by lia.
    rewrite tap_sum_shift. rewrite Z2Nat.id by lia.
    unfold clamp_to_edge.
    replace (Z.max 0 (Z.min (Z.of_nat j - len / 2 + len) (n - 1)))
      with (Z.min (len / 2 + 1 + Z.of_nat j) (n - 1)) by lia.
    replace (Z.max 0 (Z.min (Z.of_nat j - len / 2) (n - 1)))
      with (Z.max (- (len / 2) + Z.of_nat j) 0) by lia.
    reflexivity.
Qed.

Lemma box_out_odd (len n ps : Z) (line : Z -> pixel) (t : Z) :
  Z.odd len = true -> 1 <= len < 2 ^ 55 -> 1 <= n -> 0 <= t < n ->
  (forall t', 0 <= t' < n -> Forall (fun v => 0 <= v < 256) (line t')) ->
  box_out len n ps line t = direct_box_line len n ps line t.
Proof.
  intros Hodd Hlen Hn Ht Hbytes. unfold box_out, direct_box_line.
  apply map_ext. intro c.
  rewrite sliding_sum_odd by (assumption || lia). rewrite Z2Nat.id by lia.
  set (f := fun t0 => nth c (line (clamp_to_edge t0 n)) 0).
  assert (Hf : forall t0, 0 <= f t0 < 256).
  { intro t0. unfold f. apply nth_byte. apply Hbytes. unfold clamp_to_edge. lia. }
  assert (Hsum := tap_sum_bounds (Z.to_nat len) (t - len / 2) f Hf).
  rewrite Z2Nat.id in Hsum by lia.
  rewrite u64_small by (change (2 ^ 64) with (2 ^ 55 * 512); nia).
  apply u8_byte. split.
  - apply Z.div_pos; lia.
  - apply Z.div_lt_upper_bound; lia.
Qed.

Lemma direct_box_line_ext (len n ps : Z) (line line' : Z -> pixel) (t : Z) :
  1 <= n -> (forall t', 0 <= t' < n -> line t' = line' t') ->
  direct_box_line len n ps line t = direct_box_line len n ps line' t.
Proof.
  intros Hn H. unfold direct_box_line. apply map_ext. intro c.
  f_equal. apply tap_sum_ext. intro t0. rewrite H; [reflexivity |].
  unfold clamp_to_edge. lia.
Qed.

Lemma box_out_bytes (len n ps : Z) (line : Z -> pixel) (t : Z) :
  Forall (fun v => 0 <= v < 256) (box_out len n ps line t).
Proof.
  unfold box_out. apply Forall_forall. intros v Hv.
  apply in_map_iff in Hv. destruct Hv as (c & <- & _).
  unfold u8. apply Z.mod_pos_bound. reflexivity.
Qed.

(** X6.  For every odd filter length the sliding-window box blur computes,
    pixel for pixel and channel for channel, the direct box convolution
    (all-ones kernel, clamp to edge, truncating division), on every image
    of 8-bit channels that is not empty. *)
Lemma BoxBlurOperation_odd_length_direct
    (E : Environment) (op : BoxBlurOperation) (image : Image) :
  fires (box_base op) = true ->
  well_formed image = true ->
  Z.odd (filter_length op) = true ->
  1 <= filter_length op < 2 ^ 55 ->
  1 <= getWidth image < 2 ^ 63 -> 1 <= getHeight image < 2 ^ 63 ->
  exists r,
    snd (BoxBlurOperation_perform E op image) = Returns (image_ptr, r) /\
    same_shape r image /\
    forall x y, in_bounds image x y = true ->
      pixelAt r x y = pixelAt (direct_box_blur (filter_length op) image) x y.
Proof.
  intros Hf Hwf Hodd Hlen HW HH. apply fires_true in Hf.
  unfold BoxBlurOperation_perform. rewrite Hf. cbn [negb snd].
  set (len := filter_length op) in *.
  destruct (box_blur_spec E len image)
    as (transient & r & Hr & Hs & Ht & Hpix & _); try lia.
  exists r. rewrite Hr. cbn [bind]. split; [reflexivity |]. split; [exact Hs |].
  intros x y Hin. rewrite (Hpix x y Hin).
  apply in_bounds_iff in Hin. unfold direct_box_blur. cbn [pixelAt].
  rewrite box_out_odd; try lia; try assumption.
  - apply direct_box_line_ext; [lia |].
    intros x' Hx'. rewrite Ht by (apply in_bounds_iff; lia).
    apply box_out_odd; try lia; try assumption.
    intros y' Hy'. apply (well_formed_pixel image x' y' Hwf).
    apply in_bounds_iff. lia.
  - intros x' Hx'. rewrite Ht by (apply in_bounds_iff; lia).
    apply box_out_bytes.
Qed.

(** C1: what the code does for an even filter length.  With length 2 the
    sliding window of a column (0, 10, 20) adds the pixel two places ahead
    instead of the next one and returns (0, 10, 20), where the direct
    convolution gives (0, 5, 15); on the column (0, 255, 0, 0) it removes a
    pixel it never added, the 64-bit sum wraps, and the last pixel is 128,
    where the direct convolution gives 0. *)
Theorem BoxBlurOperation_even_length_differs :
  fires (box_base box_2) = true /\
  well_formed column_3 = true /\ well_formed column_4 = true /\
  (exists r,
     snd (BoxBlurOperation_perform sample_environment box_2 column_3)
     = Returns (image_ptr, r) /\
     rows_of r = [[[0]]; [[10]]; [[20]]]) /\
  rows_of (direct_box_blur 2 column_3) = [[[0]]; [[5]]; [[15]]] /\
  (exists r,
     snd (BoxBlurOperation_perform sample_environment box_2 column_4)
     = Returns (image_ptr, r) /\
     rows_of r = [[[0]]; [[0]]; [[0]]; [[128]]]) /\
  rows_of (direct_box_blur 2 column_4) = [[[0]]; [[127]]; [[127]]; [[0]]].
Proof.
  split; [reflexivity |]. split; [reflexivity |]. split; [reflexivity |].
  split; [eexists; split; vm_compute; reflexivity |].
  split; [vm_compute; reflexivity |].
  split; [eexists; split; vm_compute; reflexivity |].
  vm_compute; reflexivity.
Qed.

(** A 4 x 4 one-channel image with every pixel 100 under a box blur of
    length 3 is the direct convolution of the image, and is unchanged. *)
Lemma BoxBlurOperation_odd_length_direct_witness :
  exists r,
    snd (BoxBlurOperation_perform sample_environment box_3 flat_image)
    = Returns (image_ptr, r) /\
    same_shape r flat_image /\
    (forall x y, in_bounds flat_image x y = true ->
       pixelAt r x y = pixelAt (direct_box_blur 3 flat_image) x y) /\
    rows_of r = rows_of flat_image.
Proof.
  destruct (BoxBlurOperation_odd_length_direct sample_environment box_3
              flat_image eq_refl eq_refl eq_refl)
    as (r & Hr & Hs & Hpix); try (cbn; lia).
  exists r. split; [exact Hr |]. split; [exact Hs |]. split; [exact Hpix |].
  clear Hs Hpix. vm_compute in Hr. injection Hr as Hr. subst r.
  vm_compute. reflexivity.
Defined.

(** ** Flip *)

(** Case analysis on the integer comparisons of a goal, one comparison at a
    time, dropping the cases that cannot occur. *)
Ltac split_cases :=
  repeat (match goal with
          | |- context [?a =? ?b] => destruct (Z.eqb_spec a b)
          | |- context [?a <=? ?b] => destruct (Z.leb_spec a b)
          | |- context [?a <? ?b] => destruct (Z.ltb_spec a b)
          end; try lia; cbn [andb orb negb]);
  try reflexivity.

Lemma flip_horizontal_spec (image : Image) :
  getWidth image < 2 ^ 64 ->
  exists r,
    flip_horizontal image = Returns r /\ same_shape r image /\
    forall x y, pixelAt r x y =
                if in_bounds image x y
                then pixelAt image (getWidth image - 1 - x) y
                else pixelAt image x y.
Proof.
  intro HW64. unfold flip_horizontal.
  set (W := getWidth image) in *. set (H := getHeight image).
  loop_with
    (fun y s =>
       same_shape s image /\
       forall x' y', pixelAt s x' y' =
         if (0 <=? x') && (x' <? W) && (0 <=? y') && (y' <? y)
         then pixelAt image (W - 1 - x') y' else pixelAt image x' y')
    r Hr HI.
  - split; [apply same_shape_refl |]. intros x' y'. compare_cases.
  - intros y s Hy (Hs & Hrow).
    assert (HsW : getWidth s = W) by apply Hs.
    rewrite HsW.
    loop_with
      (fun x t =>
         same_shape t image /\
         forall x' y', pixelAt t x' y' =
           if (y' =? y) && (((0 <=? x') && (x' <? x))
                            || ((W - 1 - x <? x') && (x' <? W)))
           then pixelAt s (W - 1 - x') y' else pixelAt s x' y')
      t Ht HIt.
    + split; [exact Hs |]. intros x' y'. compare_cases.
    + intros x t Hx (Hts & Htrow).
      assert (Hhalf : 2 * (W / 2) <= W)
        by (assert (Hd := Z.div_mod W 2 ltac:(lia));
            assert (Hm := Z.mod_pos_bound W 2 ltac:(lia)); lia).
      assert (HtW : getWidth t = W) by apply Hts.
      assert (HtH : getHeight t = H) by apply Hts.
      rewrite HtW. rewrite !(u64_small (W - x - 1)) by lia.
      rewrite !getPixel_ok by lia. cbn [bind].
      destruct (setPixel_shape t x y (pixelAt t (W - x - 1) y))
        as (t1 & Hset1 & Hs1 & Hpix1); try lia.
      rewrite Hset1. cbn [bind].
      replace (getWidth t1) with W by (symmetry; transitivity (getWidth t);
                                       [apply Hs1 | exact HtW]).
      rewrite (u64_small (W - x - 1)) by lia.
      destruct (setPixel_shape t1 (W - x - 1) y (pixelAt t x y))
        as (t2 & Hset2 & Hs2 & Hpix2).
      { replace (getWidth t1) with W
          by (symmetry; transitivity (getWidth t); [apply Hs1 | exact HtW]). lia. }
      { replace (getHeight t1) with H
          by (symmetry; transitivity (getHeight t); [apply Hs1 | exact HtH]). lia. }
      exists t2. split; [exact Hset2 |]. split.
      * unfold same_shape in *. intuition congruence.
      * assert (Hleft : pixelAt t x y = pixelAt s x y)
          by (rewrite Htrow; split_cases).
        assert (Hright : pixelAt t (W - x - 1) y = pixelAt s (W - x - 1) y)
          by (rewrite Htrow; split_cases).
        intros x' y'. rewrite Hpix2, Hpix1, Hleft, Hright, Htrow.
        split_cases; subst; f_equal; lia.
    + exists t. split; [reflexivity |]. destruct HIt as (Hts & Htrow).
      split; [exact Hts |]. intros x' y'. rewrite Htrow, !Hrow.
      assert (Hd := Z.div_mod W 2 ltac:(lia)).
      assert (Hm := Z.mod_pos_bound W 2 ltac:(lia)).
      split_cases; f_equal; lia.
  - exists r. destruct HI as (Hs & Hpix). split; [reflexivity |].
    split; [exact Hs |]. intros x y. rewrite Hpix. unfold in_bounds.
    fold W H. compare_cases.
Qed.

Lemma flip_vertical_spec (image : Image) :
  getHeight image < 2 ^ 64 ->
  exists r,
    flip_vertical image = Returns r /\ same_shape r image /\
    forall x y, pixelAt r x y =
                if in_bounds image x y
                then pixelAt image x (getHeight image - 1 - y)
                else pixelAt image x y.
Proof.
  intro HH64. unfold flip_vertical.
  set (W := getWidth image) in *. set (H := getHeight image) in *.
  assert (Hd := Z.div_mod H 2 ltac:(lia)).
  assert (Hm := Z.mod_pos_bound H 2 ltac:(lia)).
  loop_with
    (fun y s =>
       same_shape s image /\
       forall x' y', pixelAt s x' y' =
         if (0 <=? x') && (x' <? W)
            && (((0 <=? y') && (y' <? y)) || ((H - 1 - y <? y') && (y' <? H)))
         then pixelAt image x' (H - 1 - y') else pixelAt image x' y')
    r Hr HI.
  - split; [apply same_shape_refl |]. intros x' y'. split_cases.
  - intros y s Hy (Hs & Hrow).
    assert (HsW : getWidth s = W) by apply Hs.
    rewrite HsW.
    loop_with
      (fun x t =>
         same_shape t image /\
         forall x' y', pixelAt t x' y' =
           if (0 <=? x') && (x' <? x) && ((y' =? y) || (y' =? H - 1 - y))
           then pixelAt s x' (H - 1 - y') else pixelAt s x' y')
      t Ht HIt.
    + split; [exact Hs |]. intros x' y'. split_cases.
    + intros x t Hx (Hts & Htrow).
      assert (HtW : getWidth t = W) by apply Hts.
      assert (HtH : getHeight t = H) by apply Hts.
      rewrite HtH. rewrite !(u64_small (H - y - 1)) by lia.
      rewrite !getPixel_ok by lia. cbn [bind].
      destruct (setPixel_shape t x y (pixelAt t x (H - y - 1)))
        as (t1 & Hset1 & Hs1 & Hpix1); try lia.
      rewrite Hset1. cbn [bind].
      replace (getHeight t1) with H by (symmetry; transitivity (getHeight t);
                                        [apply Hs1 | exact HtH]).
      rewrite (u64_small (H - y - 1)) by lia.
      destruct (setPixel_shape t1 x (H - y - 1) (pixelAt t x y))
        as (t2 & Hset2 & Hs2 & Hpix2).
      { replace (getWidth t1) with W
          by (symmetry; transitivity (getWidth t); [apply Hs1 | exact HtW]). lia. }
      { replace (getHeight t1) with H
          by (symmetry; transitivity (getHeight t); [apply Hs1 | exact HtH]). lia. }
      exists t2. split; [exact Hset2 |]. split.
      * unfold same_shape in *. intuition congruence.
      * assert (Htop : pixelAt t x y = pixelAt s x y)
          by (rewrite Htrow; split_cases).
        assert (Hbottom : pixelAt t x (H - y - 1) = pixelAt s x (H - y - 1))
          by (rewrite Htrow; split_cases).
        intros x' y'. rewrite Hpix2, Hpix1, Htop, Hbottom, Htrow.
        split_cases; subst; f_equal; lia.
    + exists t. split; [reflexivity |]. destruct HIt as (Hts & Htrow).
      split; [exact Hts |]. intros x' y'. rewrite Htrow, !Hrow.
      split_cases; f_equal; lia.
  - exists r. destruct HI as (Hs & Hpix). split; [reflexivity |].
    split; [exact Hs |]. intros x y. rewrite Hpix. unfold in_bounds.
    fold W H. split_cases; f_equal; lia.
Qed.

Lemma FlipOperation_perform_horizontal (op : FlipOperation) (image : Image) :
  fires (flip_base op) = true -> type op = HORIZONTAL ->
  snd (FlipOperation_perform op image) =
  (image <- flip_horizontal image ;; Returns (image_ptr, image)).
Proof.
  intros Hf Ht. apply fires_true in Hf. unfold FlipOperation_perform.
  rewrite Hf, Ht. reflexivity.
Qed.

Lemma FlipOperation_perform_vertical (op : FlipOperation) (image : Image) :
  fires (flip_base op) = true -> type op = VERTICAL ->
  snd (FlipOperation_perform op image) =
  (image <- flip_vertical image ;; Returns (image_ptr, image)).
Proof.
  intros Hf Ht. apply fires_true in Hf. unfold FlipOperation_perform.
  rewrite Hf, Ht. reflexivity.
Qed.

(** X1.  A horizontal flip that fires mirrors every row: the pixel at
    column [x] of the result is the pixel at column [width - 1 - x] of the
    source (the middle column of an odd width stays), the dimensions are
    kept, and no pixel outside the image is read or written. *)
Theorem FlipOperation_horizontal_mirrors (op : FlipOperation) (image : Image) :
  fires (flip_base op) = true ->
  type op = HORIZONTAL ->
  getWidth image < 2 ^ 64 ->
  exists r,
    snd (FlipOperation_perform op image) = Returns (image_ptr, r) /\
    same_shape r image /\
    forall x y, in_bounds image x y = true ->
                pixelAt r x y = pixelAt image (getWidth image - 1 - x) y.
Proof.
  intros Hf Ht HW. rewrite (FlipOperation_perform_horizontal op image Hf Ht).
  destruct (flip_horizontal_spec image HW) as (r & Hr & Hs & Hpix).
  exists r. rewrite Hr. split; [reflexivity |]. split; [exact Hs |].
  intros x y Hin. now rewrite Hpix, Hin.
Qed.

Lemma FlipOperation_horizontal_mirrors_witness :
  exists r,
    snd (FlipOperation_perform (mkFlip (always 1) HORIZONTAL) image_2x2)
    = Returns (image_ptr, r) /\
    pixelAt r 0 0 = [2] /\ pixelAt r 1 0 = [1] /\
    pixelAt r 0 1 = [4] /\ pixelAt r 1 1 = [3].
Proof.
  destruct (FlipOperation_horizontal_mirrors (mkFlip (always 1) HORIZONTAL)
              image_2x2 eq_refl eq_refl eq_refl) as (r & Hr & _ & Hpix).
  exists r. split; [exact Hr |].
  rewrite !Hpix by reflexivity. repeat split.
Defined.

(** X2.  A vertical flip that fires mirrors every column: the pixel at row
    [y] of the result is the pixel at row [height - 1 - y] of the source,
    the dimensions are kept, and no pixel outside the image is read or
    written. *)
Theorem FlipOperation_vertical_mirrors (op : FlipOperation) (image : Image) :
  fires (flip_base op) = true ->
  type op = VERTICAL ->
  getHeight image < 2 ^ 64 ->
  exists r,
    snd (FlipOperation_perform op image) = Returns (image_ptr, r) /\
    same_shape r image /\
    forall x y, in_bounds image x y = true ->
                pixelAt r x y = pixelAt image x (getHeight image - 1 - y).
Proof.
  intros Hf Ht HH. rewrite (FlipOperation_perform_vertical op image Hf Ht).
  destruct (flip_vertical_spec image HH) as (r & Hr & Hs & Hpix).
  exists r. rewrite Hr. split; [reflexivity |]. split; [exact Hs |].
  intros x y Hin. now rewrite Hpix, Hin.
Qed.

Lemma FlipOperation_vertical_mirrors_witness :
  exists r,
    snd (FlipOperation_perform (mkFlip (always 1) VERTICAL) image_2x2)
    = Returns (image_ptr, r) /\
    pixelAt r 0 0 = [3] /\ pixelAt r 1 0 = [4] /\
    pixelAt r 0 1 = [1] /\ pixelAt r 1 1 = [2].
Proof.
  destruct (FlipOperation_vertical_mirrors (mkFlip (always 1) VERTICAL)
              image_2x2 eq_refl eq_refl eq_refl) as (r & Hr & _ & Hpix).
  exists r. split; [exact Hr |].
  rewrite !Hpix by reflexivity. repeat split.
Defined.

Lemma in_bounds_shape (a b : Image) (x y : Z) :
  same_shape a b -> in_bounds a x y = in_bounds b x y.
Proof.
  intros (Hw & Hh & _). unfold in_bounds. now rewrite Hw, Hh.
Qed.

(** X3.  Flip is an involution: two flips of the same type, horizontal or
    vertical, the gate firing both times, give back the source image pixel
    for pixel. *)
Theorem FlipOperation_involutive (op : FlipOperation) (image : Image) :
  type op = HORIZONTAL \/ type op = VERTICAL ->
  fires (flip_base op) = true ->
  fires (flip_base (fst (FlipOperation_perform op image))) = true ->
  getWidth image < 2 ^ 64 -> getHeight image < 2 ^ 64 ->
  exists once twice,
    snd (FlipOperation_perform op image) = Returns (image_ptr, once) /\
    snd (FlipOperation_perform (fst (FlipOperation_perform op image)) once)
    = Returns (image_ptr, twice) /\
    same_shape twice image /\ same_grid twice image.
Proof.
  intros Htype Hf1 Hf2 HW HH.
  assert (Htype' : type (fst (FlipOperation_perform op image)) = type op).
  { unfold FlipOperation_perform.
    destruct (operate_this_time (flip_base op)) as [fire base].
    destruct (negb fire); [reflexivity |].
    destruct (String.eqb (type op) HORIZONTAL); [reflexivity |].
    destruct (String.eqb (type op) VERTICAL); reflexivity. }
  destruct Htype as [Ht | Ht].
  - destruct (flip_horizontal_spec image HW) as (once & H1 & Hs1 & Hp1).
    destruct (flip_horizontal_spec once) as (twice & H2 & Hs2 & Hp2).
    { replace (getWidth once) with (getWidth image) by (symmetry; apply Hs1).
      exact HW. }
    exists once, twice.
    split; [rewrite (FlipOperation_perform_horizontal op image Hf1 Ht), H1;
            reflexivity |].
    split; [rewrite FlipOperation_perform_horizontal
              by (assumption || congruence); rewrite H2; reflexivity |].
    assert (Hs : same_shape twice image)
      by (unfold same_shape in *; intuition congruence).
    split; [exact Hs |]. split; [apply Hs | split; [apply Hs |]].
    intros x y. rewrite Hp2, (in_bounds_shape once image x y Hs1).
    replace (getWidth once) with (getWidth image) by (symmetry; apply Hs1).
    destruct (in_bounds image x y) eqn:Hin; rewrite Hp1;
      [| now rewrite Hin].
    apply in_bounds_iff in Hin.
    rewrite (proj2 (in_bounds_iff image (getWidth image - 1 - x) y))
      by lia.
    f_equal; lia.
  - destruct (flip_vertical_spec image HH) as (once & H1 & Hs1 & Hp1).
    destruct (flip_vertical_spec once) as (twice & H2 & Hs2 & Hp2).
    { replace (getHeight once) with (getHeight image) by (symmetry; apply Hs1).
      exact HH. }
    exists once, twice.
    split; [rewrite (FlipOperation_perform_vertical op image Hf1 Ht), H1;
            reflexivity |].
    split; [rewrite FlipOperation_perform_vertical
              by (assumption || congruence); rewrite H2; reflexivity |].
    assert (Hs : same_shape twice image)
      by (unfold same_shape in *; intuition congruence).
    split; [exact Hs |]. split; [apply Hs | split; [apply Hs |]].
    intros x y. rewrite Hp2, (in_bounds_shape once image x y Hs1).
    replace (getHeight once) with (getHeight image) by (symmetry; apply Hs1).
    destruct (in_bounds image x y) eqn:Hin; rewrite Hp1;
      [| now rewrite Hin].
    apply in_bounds_iff in Hin.
    rewrite (proj2 (in_bounds_iff image x (getHeight image - 1 - y)))
      by lia.
    f_equal; lia.
Qed.

Lemma FlipOperation_involutive_witness :
  exists once twice,
    snd (FlipOperation_perform (mkFlip (always 1) VERTICAL) image_2x2)
    = Returns (image_ptr, once) /\
    snd (FlipOperation_perform
           (fst (FlipOperation_perform (mkFlip (always 1) VERTICAL) image_2x2))
           once)
    = Returns (image_ptr, twice) /\
    same_shape twice image_2x2 /\ same_grid twice image_2x2.
Proof.
  exact (FlipOperation_involutive (mkFlip (always 1) VERTICAL) image_2x2
           (or_intror eq_refl) eq_refl eq_refl eq_refl eq_refl).
Defined.

(** ** A centred crop that fits *)

Lemma crop_copy_spec (image temp : Image) (size : image_size)
    (left_offset down_offset : Z) :
  0 <= left_offset -> 0 <= down_offset ->
  0 <= width size -> 0 <= height size ->
  left_offset + width size <= getWidth image ->
  down_offset + height size <= getHeight image ->
  getWidth image < 2 ^ 64 -> getHeight image < 2 ^ 64 ->
  getWidth temp = width size -> getHeight temp = height size ->
  exists r,
    crop_copy image temp size left_offset down_offset = Returns r /\
    same_shape r temp /\
    forall x y,
      pixelAt r x y =
      if (0 <=? x) && (x <? width size) && (0 <=? y) && (y <? height size)
      then pixelAt image (left_offset + x) (down_offset + y)
      else pixelAt temp x y.
Proof.
  intros Hl Hd Hw Hh HW HH HW64 HH64 Htw Hth. unfold crop_copy.
  set (sw := width size) in *. set (sh := height size) in *.
  rewrite !u64_small by lia.
  loop_with
    (fun i (st : Image * Z) =>
       snd st = i - left_offset /\ same_shape (fst st) temp /\
       forall x y,
         pixelAt (fst st) x y =
         if (0 <=? x) && (x <? i - left_offset) && (0 <=? y) && (y <? sh)
         then pixelAt image (left_offset + x) (down_offset + y)
         else pixelAt temp x y)
    r Hr HI.
  - cbn [fst snd]. split; [lia |]. split; [apply same_shape_refl |].
    intros x y. split_cases.
  - intros i [t i1] Hi (Hi1 & Hs & Hpix). cbn [fst snd] in *.
    loop_with
      (fun j (st : Image * Z) =>
         snd st = j - down_offset /\ same_shape (fst st) temp /\
         forall x y,
           pixelAt (fst st) x y =
           if ((0 <=? x) && (x <? i1) && (0 <=? y) && (y <? sh))
              || ((x =? i1) && (0 <=? y) && (y <? j - down_offset))
           then pixelAt image (left_offset + x) (down_offset + y)
           else pixelAt temp x y)
      r2 Hr2 HI2.
    + cbn [fst snd]. split; [lia |]. split; [exact Hs |].
      intros x y. rewrite Hpix. subst i1. split_cases.
    + intros j [t2 j1] Hj (Hj1 & Hs2 & Hpix2). cbn [fst snd] in *.
      rewrite getPixel_ok by lia. cbn [bind].
      destruct (setPixel_shape t2 i1 j1 (pixelAt image i j))
        as (t3 & Hset & Hs3 & Hpix3).
      { replace (getWidth t2) with sw
          by (symmetry; transitivity (getWidth temp); [apply Hs2 | exact Htw]).
        lia. }
      { replace (getHeight t2) with sh
          by (symmetry; transitivity (getHeight temp); [apply Hs2 | exact Hth]).
        lia. }
      rewrite Hset. cbn [bind]. eexists. split; [reflexivity |]. cbn [fst snd].
      split; [rewrite u64_small by lia; lia |]. split.
      * unfold same_shape in *. intuition congruence.
      * intros x y. rewrite Hpix3, Hpix2. subst i1 j1.
        split_cases; subst; f_equal; lia.
    + destruct r2 as [t2 j1]. destruct HI2 as (_ & Hs2 & Hpix2).
      cbn [fst snd bind] in *. eexists. split; [reflexivity |]. cbn [fst snd].
      split; [rewrite u64_small by lia; lia |]. split; [exact Hs2 |].
      intros x y. rewrite Hpix2. subst i1. split_cases.
  - destruct r as [t i1]. destruct HI as (_ & Hs & Hpix). cbn [fst snd bind] in *.
    exists t. split; [reflexivity |]. split; [exact Hs |].
    intros x y. rewrite Hpix. split_cases.
Qed.

(** X4.  A centred crop that fires, to a size that fits in the image: the
    result has the target dimensions, the pixel size and colour space of
    the two-argument constructor, and its pixel [(x, y)] is the source pixel
    [(w/2 - size.width/2 + x, h/2 - size.height/2 + y)]; no pixel outside
    the source is read. *)
Theorem CropOperation_center_copies
    (E : Environment) (op : CropOperation) (image : Image) :
  fires (crop_base op) = true ->
  center op = true ->
  0 <= width (crop_size op) <= getWidth image ->
  0 <= height (crop_size op) <= getHeight image ->
  getWidth image < 2 ^ 31 -> getHeight image < 2 ^ 31 ->
  exists r,
    snd (CropOperation_perform E op image) = Returns (image_ptr, r) /\
    getWidth r = width (crop_size op) /\
    getHeight r = height (crop_size op) /\
    getPixelSize r = default_pixel_size E /\
    getColorSpace r = default_color_space E /\
    forall x y,
      0 <= x < width (crop_size op) -> 0 <= y < height (crop_size op) ->
      pixelAt r x y =
      pixelAt image
        (getWidth image / 2 - width (crop_size op) / 2 + x)
        (getHeight image / 2 - height (crop_size op) / 2 + y).
Proof.
  intros Hf Hc Hw Hh HW HH. apply fires_true in Hf.
  unfold CropOperation_perform. rewrite Hf, Hc. cbn [negb snd].
  set (size := crop_size op) in *.
  set (W := getWidth image) in *. set (H := getHeight image) in *.
  rewrite !s32_small by lia. rewrite !Z.quot_div_nonneg by lia.
  assert (HW2 : 0 <= W / 2 < 2 ^ 31)
    by (split; [apply Z.div_pos; lia | apply Z.div_lt_upper_bound; lia]).
  assert (HH2 : 0 <= H / 2 < 2 ^ 31)
    by (split; [apply Z.div_pos; lia | apply Z.div_lt_upper_bound; lia]).
  assert (Hsw := Z.div_mod (width size) 2 ltac:(lia)).
  assert (Hsw' := Z.mod_pos_bound (width size) 2 ltac:(lia)).
  assert (Hsh := Z.div_mod (height size) 2 ltac:(lia)).
  assert (Hsh' := Z.mod_pos_bound (height size) 2 ltac:(lia)).
  assert (HWd := Z.div_mod W 2 ltac:(lia)).
  assert (HWd' := Z.mod_pos_bound W 2 ltac:(lia)).
  assert (HHd := Z.div_mod H 2 ltac:(lia)).
  assert (HHd' := Z.mod_pos_bound H 2 ltac:(lia)).
  rewrite (u64_small (W / 2)), (u64_small (H / 2)) by lia.
  rewrite (u64_small (W / 2 - width size / 2)) by lia.
  rewrite (u64_small (H / 2 - height size / 2)) by lia.
  destruct (crop_copy_spec image (Image2 E (width size) (height size)) size
              (W / 2 - width size / 2) (H / 2 - height size / 2))
    as (r & Hr & Hs & Hpix); try (fold W H; lia); try reflexivity.
  exists r. rewrite Hr. cbn [bind]. split; [reflexivity |].
  destruct Hs as (Hrw & Hrh & Hrp & Hrc).
  repeat (split; [assumption |]).
  intros x y Hx Hy. rewrite Hpix.
  rewrite (proj2 (Z.leb_le 0 x)), (proj2 (Z.ltb_lt x (width size))),
    (proj2 (Z.leb_le 0 y)), (proj2 (Z.ltb_lt y (height size))) by lia.
  reflexivity.
Qed.

Lemma CropOperation_center_copies_witness :
  exists r,
    snd (CropOperation_perform sample_environment
           (mkCrop (always 1) (mkSize 2 4) true) image_8x8)
    = Returns (image_ptr, r) /\
    getWidth r = 4 /\ getHeight r = 2 /\
    pixelAt r 0 0 = [26] /\ pixelAt r 3 1 = [37].
Proof.
  destruct (CropOperation_center_copies sample_environment
              (mkCrop (always 1) (mkSize 2 4) true) image_8x8 eq_refl eq_refl)
    as (r & Hr & Hw & Hh & _ & _ & Hpix); try (cbn; lia).
  exists r. split; [exact Hr |]. split; [exact Hw |]. split; [exact Hh |].
  split; rewrite Hpix by (cbn; lia); reflexivity.
Defined.

(** ** What throws *)

Lemma accumulator_div_no_throw (acc : accumulator) (d : Z) (e : exception) :
  accumulator_div acc d <> Throws e.
Proof.
  unfold accumulator_div. destruct (d =? 0); [destruct acc |]; discriminate.
Qed.

Lemma umod_no_throw (a b : Z) (e : exception) : umod a b <> Throws e.
Proof. unfold umod. destruct (b =? 0); discriminate. Qed.

Lemma for_no_throw {St : Type} (body : Z -> St -> outcome St) (lo hi : Z) :
  (forall i s e, body i s <> Throws e) ->
  forall s e, for_ lo hi body s <> Throws e.
Proof. intros Hb s e. unfold for_. now apply iterate_no_throw. Qed.

(** A computation built from pixel accesses, accumulator divisions and
    loops over them does not throw. *)
Ltac no_throw :=
  repeat first
    [ apply getPixel_no_throw
    | apply setPixel_no_throw
    | apply accumulator_div_no_throw
    | apply umod_no_throw
    | discriminate
    | apply for_no_throw
    | apply bind_no_throw
    | progress intros
    | progress cbv beta
    | match goal with
      | |- context [let (_, _) := ?p in _] => destruct p
      | |- context [if ?b then _ else _] => destruct b
      end ].

Lemma box_blur_no_throw (E : Environment) (len : Z) (image : Image)
    (e : exception) :
  box_blur E len image <> Throws e.
Proof. unfold box_blur, box_line. no_throw. Qed.

Lemma run_passes_no_throw (E : Environment)
    (operations : list BoxBlurOperation) (image : Image) (e : exception) :
  run_passes E operations image <> Throws e.
Proof.
  revert image e. induction operations as [| o rest IH]; intros image e;
    cbn [run_passes]; [discriminate |].
  apply bind_no_throw; [| intros [p img] e'; apply IH].
  intro e'. unfold BoxBlurOperation_perform.
  destruct (operate_this_time (box_base o)) as [fire base].
  destruct fire; cbn [negb snd]; [| discriminate].
  apply bind_no_throw; [intro; apply box_blur_no_throw | discriminate].
Qed.

(** X5.  The only exception any operation raises is the one of a flip of
    unknown type: if [perform] throws, the operation is a [FlipOperation]
    whose gate fired and whose type is neither "Horizontal" nor "Vertical".
    In particular no crop, zoom, blur, rotation or erase ever reports an
    out-of-range coordinate or a degenerate parameter by an exception. *)
Theorem perform_throws_only_in_flip
    (E : Environment) (op : AnyOperation) (image : Image) (e : exception) :
  snd (perform E op image) = Throws e ->
  exists o,
    op = Flip o /\ fires (flip_base o) = true /\
    type o <> HORIZONTAL /\ type o <> VERTICAL.
Proof.
  destruct op as [o|o|o|o|o|o|o|o|o|o|o]; cbn [perform].
  - unfold StdoutOperation_perform.
    destruct (operate_this_time (stdout_base o)) as [[] base]; discriminate.
  - unfold ResizeOperation_perform.
    destruct (operate_this_time (resize_base o)) as [[] base]; cbn [negb];
      [destruct (uniform_random_number base) |]; discriminate.
  - intro H. exfalso.
    destruct (CropOperation_perform E o image) as [o' r] eqn:Hp.
    cbn [snd] in H. apply (CropOperation_perform_never_throws E o image e).
    now rewrite Hp.
  - unfold RotateOperation_perform.
    destruct (operate_this_time (rotate_base o)) as [[] base]; cbn [negb];
      [| discriminate].
    destruct (uniform_random_number_between _ _ _) as [degree base'].
    cbn [snd]. intro H. exfalso. revert H. unfold rotate_copy.
    apply bind_no_throw; [| discriminate]. no_throw.
  - unfold ZoomOperation_perform.
    destruct (operate_this_time (zoom_base o)) as [[] base]; cbn [negb];
      [| discriminate].
    destruct (uniform_random_number_between _ _ _) as [level base'].
    cbn [snd]. intro H. exfalso.
    now apply CropOperation_perform_never_throws in H.
  - unfold InvertOperation_perform.
    destruct (operate_this_time (invert_base o)) as [[] base]; cbn [negb snd];
      [| discriminate].
    intro H. exfalso. revert H. unfold invert_pixels.
    apply bind_no_throw; [| discriminate]. no_throw.
  - unfold GaussianBlurOperation_perform.
    destruct (operate_this_time (gaussian_base o)) as [[] base]; cbn [negb snd];
      [| discriminate].
    intro H. exfalso. revert H. unfold gaussian_taps. no_throw.
  - unfold BoxBlurOperation_perform.
    destruct (operate_this_time (box_base o)) as [[] base]; cbn [negb snd];
      [| discriminate].
    intro H. exfalso. revert H.
    apply bind_no_throw; [intro; apply box_blur_no_throw | discriminate].
  - unfold FastGaussianBlurOperation_perform.
    destruct (operate_this_time (fast_base o)) as [[] base]; cbn [negb snd];
      [| discriminate].
    intro H. exfalso. now apply run_passes_no_throw in H.
  - unfold RandomEraseOperation_perform.
    destruct (operate_this_time (erase_base o)) as [[] base]; cbn [negb];
      [| discriminate].
    destruct (uniform_random_number base) as [f base'].
    destruct (draw (xy_generator o)) as [r_top xy].
    destruct (draw xy) as [r_left xy'].
    destruct (bind (umod _ _) _) as [[noise img] | e' | u] eqn:Hm; cbn [snd];
      try discriminate.
    intros _. exfalso. revert Hm. unfold erase_fill. no_throw.
  - unfold FlipOperation_perform.
    destruct (operate_this_time (flip_base o)) as [[] base] eqn:Hop;
      cbn [negb]; [| discriminate].
    destruct (String.eqb_spec (type o) HORIZONTAL) as [| Hh].
    + cbn [snd]. intro H. exfalso. revert H. unfold flip_horizontal.
      apply bind_no_throw; [| discriminate]. no_throw.
    + destruct (String.eqb_spec (type o) VERTICAL) as [| Hv].
      * cbn [snd]. intro H. exfalso. revert H. unfold flip_vertical.
        apply bind_no_throw; [| discriminate]. no_throw.
      * intros _. exists o. split; [reflexivity |]. split; [| now split].
        unfold fires. now rewrite Hop.
Qed.

Lemma perform_throws_only_in_flip_witness :
  exists o,
    Flip (mkFlip (always 1) "Diagonal") = Flip o /\
    fires (flip_base o) = true /\
    type o <> HORIZONTAL /\ type o <> VERTICAL.
Proof.
  exact (perform_throws_only_in_flip sample_environment
           (Flip (mkFlip (always 1) "Diagonal")) image_2x2
           (out_of_range
              "Unknown Flip type - Choose wither 'Horizontal' or 'Vertical'")
           eq_refl).
Defined.

(** ** What a box blur returns, and when it does not *)

Lemma well_formed_intro (image : Image) :
  0 <= getPixelSize image ->
  (forall x y, in_bounds image x y = true ->
     Z.of_nat (List.length (pixelAt image x y)) = getPixelSize image /\
     Forall (fun v => 0 <= v < 256) (pixelAt image x y)) ->
  well_formed image = true.
Proof.
  intros Hps Hall. unfold well_formed, every_pixel.
  apply andb_true_iff. split; [now apply Z.leb_le |].
  apply forallb_forall. intros y Hy. apply in_seq in Hy.
  apply forallb_forall. intros x Hx. apply in_seq in Hx.
  destruct (Hall (Z.of_nat x) (Z.of_nat y)) as [Hlen Hbytes].
  { apply in_bounds_iff. lia. }
  apply andb_true_iff. split; [now apply Z.eqb_eq |].
  apply forallb_forall. intros v Hv. rewrite Forall_forall in Hbytes.
  specialize (Hbytes v Hv). unfold is_byte.
  apply andb_true_iff. rewrite Z.leb_le, Z.ltb_lt. lia.
Qed.

Lemma box_out_length (len n ps : Z) (line : Z -> pixel) (t : Z) :
  0 <= ps -> Z.of_nat (List.length (box_out len n ps line t)) = ps.
Proof.
  intro Hps. unfold box_out. rewrite length_map, length_seq. lia.
Qed.

(** X7.  For every filter length from 1 on and every image that is not
    empty, whatever its channels hold, a box blur that fires returns (it
    reads and writes no pixel outside the image and divides by no zero),
    keeps the dimensions, pixel size and colour space, and leaves an image
    whose pixels are vectors of [pixel_size] values of 8 bits. *)
Theorem BoxBlurOperation_returns_well_formed
    (E : Environment) (op : BoxBlurOperation) (image : Image) :
  fires (box_base op) = true ->
  1 <= filter_length op < 2 ^ 63 ->
  1 <= getWidth image < 2 ^ 63 -> 1 <= getHeight image < 2 ^ 63 ->
  0 <= getPixelSize image ->
  exists r,
    snd (BoxBlurOperation_perform E op image) = Returns (image_ptr, r) /\
    same_shape r image /\ well_formed r = true.
Proof.
  intros Hf Hlen HW HH Hps. apply fires_true in Hf.
  unfold BoxBlurOperation_perform. rewrite Hf. cbn [negb snd].
  destruct (box_blur_spec E (filter_length op) image Hlen HW HH)
    as (transient & r & Hr & Hs & _ & Hpix & _).
  exists r. rewrite Hr. cbn [bind]. split; [reflexivity |]. split; [exact Hs |].
  assert (Hrps : getPixelSize r = getPixelSize image) by apply Hs.
  apply well_formed_intro; [lia |].
  intros x y Hin. rewrite (in_bounds_shape r image x y Hs) in Hin.
  rewrite (Hpix x y Hin), Hrps. split.
  - now apply box_out_length.
  - apply box_out_bytes.
Qed.

Lemma BoxBlurOperation_returns_well_formed_witness :
  exists r,
    snd (BoxBlurOperation_perform sample_environment box_2 column_4)
    = Returns (image_ptr, r) /\
    same_shape r column_4 /\ well_formed r = true.
Proof.
  apply (BoxBlurOperation_returns_well_formed sample_environment box_2 column_4);
    try reflexivity; cbn; lia.
Defined.

Lemma for_unfold {St : Type} (lo hi : Z) (body : Z -> St -> outcome St) (s : St) :
  lo < hi ->
  for_ lo hi body s = (s' <- body lo s ;; for_ (lo + 1) hi body s').
Proof.
  intro H. unfold for_.
  replace (Z.to_nat (hi - lo)) with (S (Z.to_nat (hi - (lo + 1)))) by lia.
  reflexivity.
Qed.

Lemma for_empty {St : Type} (lo hi : Z) (body : Z -> St -> outcome St) (s : St) :
  hi <= lo -> for_ lo hi body s = Returns s.
Proof.
  intro H. unfold for_. now replace (Z.to_nat (hi - lo)) with 0%nat by lia.
Qed.

(** A scan line of at least two pixels under a filter of length 0: the
    first sliding step divides by zero. *)
Lemma box_line_zero_length (n ps : Z)
    (get : Z -> outcome pixel) (set : Image -> Z -> pixel -> outcome Image)
    (dst : Image) (p0 p1 : pixel) :
  2 <= n < 2 ^ 63 -> 1 <= ps ->
  get 0 = Returns p0 -> get 1 = Returns p1 ->
  box_line 0 n get set ps dst = Undefined division_by_zero.
Proof.
  intros Hn Hps H0 H1. unfold box_line.
  change (0 / 2) with 0. change (s64 (u64 (- 0))) with 0.
  change (u64 (0 + 1)) with 1.
  rewrite for_empty by lia. cbn [bind].
  rewrite for_unfold by lia.
  change (u64 (Z.max 0 0)) with 0.
  rewrite (u64_small (n - 1)) by lia.
  replace (Z.min 1 (n - 1)) with 1 by lia.
  rewrite H0, H1. cbn [bind].
  unfold accumulator_new.
  destruct (Z.to_nat ps) as [| m] eqn:Hm; [lia |].
  reflexivity.
Qed.

Lemma box_line_one_pixel (ps : Z)
    (get : Z -> outcome pixel) (set : Image -> Z -> pixel -> outcome Image)
    (dst : Image) :
  box_line 0 1 get set ps dst = Returns dst.
Proof. reflexivity. Qed.

(** X8.  A box blur of filter length 0 is not rejected: when it fires on an
    image of at least two pixels (and at least one channel), the first
    sliding step divides the accumulator by zero. *)
Theorem BoxBlurOperation_zero_length_divides_by_zero
    (E : Environment) (op : BoxBlurOperation) (image : Image) :
  fires (box_base op) = true ->
  filter_length op = 0 ->
  1 <= getPixelSize image ->
  1 <= getWidth image < 2 ^ 63 -> 1 <= getHeight image < 2 ^ 63 ->
  2 <= getWidth image \/ 2 <= getHeight image ->
  snd (BoxBlurOperation_perform E op image) = Undefined division_by_zero.
Proof.
  intros Hf Hlen Hps HW HH Htwo. apply fires_true in Hf.
  unfold BoxBlurOperation_perform. rewrite Hf, Hlen. cbn [negb snd].
  unfold box_blur.
  destruct (Z_le_gt_dec 2 (getHeight image)) as [H2 | H1].
  - rewrite for_unfold by lia.
    rewrite (box_line_zero_length (getHeight image) (getPixelSize image) _ _ _
               (pixelAt image 0 0) (pixelAt image 0 1));
      try lia; try (apply getPixel_ok; lia).
    reflexivity.
  - assert (HH1 : getHeight image = 1) by lia. rewrite HH1.
    set (blank := Image4 E (getWidth image) 1 (getPixelSize image)
                    (getColorSpace image)).
    assert (Hpass : for_ 0 (getWidth image)
              (fun i transient =>
                 box_line 0 1 (fun y => getPixel image i y)
                   (fun t j p => setPixel t i j p) (getPixelSize image) transient)
              blank = Returns blank).
    { destruct (for_rule (fun (_ : Z) t => t = blank)
                  (fun i transient =>
                     box_line 0 1 (fun y => getPixel image i y)
                       (fun t j p => setPixel t i j p) (getPixelSize image)
                       transient)
                  0 (getWidth image) blank eq_refl) as (t & Ht & ->).
      - intros i s _ ->. exists blank. split; [apply box_line_one_pixel | reflexivity].
      - exact Ht. }
    rewrite Hpass. cbn [bind].
    rewrite for_unfold by lia.
    rewrite (box_line_zero_length (getWidth image) (getPixelSize image) _ _ _
               (pixelAt blank 0 0) (pixelAt blank 1 0));
      try lia; try (apply getPixel_ok; cbn; lia).
    reflexivity.
Qed.

Lemma BoxBlurOperation_zero_length_divides_by_zero_witness :
  snd (BoxBlurOperation_perform sample_environment (mkBoxBlur (always 1) 0)
         image_2x2)
  = Undefined division_by_zero.
Proof.
  apply BoxBlurOperation_zero_length_divides_by_zero;
    try reflexivity; cbn; lia.
Defined.

(** ** The passes of the fast Gaussian blur *)

Lemma BoxBlurOperation_perform_constant
    (E : Environment) (o : BoxBlurOperation) (image : Image) (p : pixel) :
  1 <= filter_length o < 2 ^ 55 ->
  1 <= getWidth image < 2 ^ 63 -> 1 <= getHeight image < 2 ^ 63 ->
  constant_image p image ->
  Z.of_nat (List.length p) = getPixelSize image ->
  Forall (fun v => 0 <= v < 256) p ->
  exists r,
    snd (BoxBlurOperation_perform E o image) = Returns (image_ptr, r) /\
    same_shape r image /\ constant_image p r.
Proof.
  intros Hlen HW HH Hconst Hps Hp. unfold BoxBlurOperation_perform.
  destruct (operate_this_time (box_base o)) as [[] base]; cbn [negb snd].
  - destruct (box_blur_constant E (filter_length o) image p)
      as (r & Hr & Hs & Hc); try assumption.
    exists r. rewrite Hr. repeat split; try apply Hs. exact Hc.
  - exists image. repeat split. exact Hconst.
Qed.

Lemma run_passes_constant
    (E : Environment) (operations : list BoxBlurOperation) (p : pixel) :
  Forall (fun o => 1 <= filter_length o < 2 ^ 55) operations ->
  Forall (fun v => 0 <= v < 256) p ->
  forall image,
    1 <= getWidth image < 2 ^ 63 -> 1 <= getHeight image < 2 ^ 63 ->
    constant_image p image ->
    Z.of_nat (List.length p) = getPixelSize image ->
    exists r,
      run_passes E operations image = Returns (image_ptr, r) /\
      same_shape r image /\ constant_image p r.
Proof.
  intros Hops Hp. induction Hops as [| o rest Ho _ IH];
    intros image HW HH Hconst Hps; cbn [run_passes].
  - exists image. repeat split. exact Hconst.
  - destruct (BoxBlurOperation_perform_constant E o image p)
      as (r1 & Hr1 & Hs1 & Hc1); try assumption.
    rewrite Hr1. cbn [bind].
    destruct Hs1 as (Hw1 & Hh1 & Hp1 & Hcs1).
    destruct (IH r1) as (r & Hr & Hs & Hc); try congruence; try assumption.
    exists r. split; [exact Hr |]. split; [| exact Hc].
    unfold same_shape in *. intuition congruence.
Qed.

(** X9.  The fast Gaussian blur keeps a flat field: when its gate fires, on
    an image whose pixels all are the same vector of 8-bit values, the
    passes run one after the other, each on the result of the one before,
    and whatever their number, their lengths (from 1 on) and the outcome of
    their own gates, the result is the same constant image. *)
Theorem FastGaussianBlurOperation_flat_field
    (E : Environment) (op : FastGaussianBlurOperation) (image : Image)
    (p : pixel) :
  fires (fast_base op) = true ->
  Forall (fun o => 1 <= filter_length o < 2 ^ 55) (box_blur_operations op) ->
  constant_image p image ->
  Z.of_nat (List.length p) = getPixelSize image ->
  Forall (fun v => 0 <= v < 256) p ->
  1 <= getWidth image < 2 ^ 63 -> 1 <= getHeight image < 2 ^ 63 ->
  exists r,
    snd (FastGaussianBlurOperation_perform E op image) = Returns (image_ptr, r) /\
    same_shape r image /\ constant_image p r.
Proof.
  intros Hf Hops Hconst Hps Hp HW HH. apply fires_true in Hf.
  unfold FastGaussianBlurOperation_perform. rewrite Hf. cbn [negb snd].
  now apply run_passes_constant.
Qed.

Lemma FastGaussianBlurOperation_flat_field_witness :
  exists r,
    snd (FastGaussianBlurOperation_perform sample_environment
           (mkFastGaussianBlur (always 1)
              [box_3; mkBoxBlur (always (1 # 4)) 5; box_2])
           flat_image)
    = Returns (image_ptr, r) /\
    same_shape r flat_image /\ constant_image [100] r.
Proof.
  apply FastGaussianBlurOperation_flat_field; try reflexivity.
  - repeat constructor; cbn; lia.
  - intros x y _. reflexivity.
  - repeat constructor; lia.
  - cbn; lia.
  - cbn; lia.
Defined.

(** ** Ranged draws and the resize target *)






(** ** Draws and pointers *)

Lemma operate_this_time_fires (o : Operation) :
  operate_this_time o =
  (fires o,
   mkOperation (probability o)
     (mkGenerator (values (generator o)) (S (drawn (generator o))))).
Proof. reflexivity. Qed.

(** X12.  Every call of [perform], whatever it returns, advances the
    generator of the operation by a fixed number of draws: one when the gate
    fails; when it fires, two for the resize, the rotation, the zoom and the
    random erase, one for every other operation.  The sequence of the
    generator and the probability are never changed. *)
Theorem perform_draws (E : Environment) (op : AnyOperation) (image : Image) :
  let op' := fst (perform E op image) in
  generator (base_of op') =
    mkGenerator (values (generator (base_of op)))
      (drawn (generator (base_of op)) + draws_of op) /\
  probability (base_of op') = probability (base_of op).
Proof.
  cbv zeta. unfold draws_of.
  destruct op as [o|o|o|o|o|o|o|o|o|o|o]; cbn [perform base_of].
  - unfold StdoutOperation_perform. rewrite operate_this_time_fires.
    destruct (fires (stdout_base o)); cbn; split; try reflexivity; f_equal; lia.
  - unfold ResizeOperation_perform. rewrite operate_this_time_fires.
    destruct (fires (resize_base o)); cbn; split; try reflexivity; f_equal; lia.
  - unfold CropOperation_perform. rewrite operate_this_time_fires.
    destruct (fires (crop_base o)); cbn [negb]; [destruct (center o) |];
      cbn; split; try reflexivity; f_equal; lia.
  - unfold RotateOperation_perform. rewrite operate_this_time_fires.
    destruct (fires (rotate_base o)); cbn; split; try reflexivity; f_equal; lia.
  - unfold ZoomOperation_perform. rewrite operate_this_time_fires.
    destruct (fires (zoom_base o)); cbn [negb];
      [unfold uniform_random_number_between, draw |];
      cbn; split; try reflexivity; f_equal; lia.
  - unfold InvertOperation_perform. rewrite operate_this_time_fires.
    destruct (fires (invert_base o)); cbn; split; try reflexivity; f_equal; lia.
  - unfold GaussianBlurOperation_perform. rewrite operate_this_time_fires.
    destruct (fires (gaussian_base o)); cbn [negb fst base_of gaussian_base
                                              generator probability];
      split; try reflexivity; f_equal; lia.
  - unfold BoxBlurOperation_perform. rewrite operate_this_time_fires.
    destruct (fires (box_base o)); cbn [negb fst base_of box_base generator
                                         probability];
      split; try reflexivity; f_equal; lia.
  - unfold FastGaussianBlurOperation_perform. rewrite operate_this_time_fires.
    destruct (fires (fast_base o)); cbn [negb fst base_of fast_base generator
                                          probability];
      split; try reflexivity; f_equal; lia.
  - unfold RandomEraseOperation_perform. rewrite operate_this_time_fires.
    destruct (fires (erase_base o)); cbn [negb].
    + rewrite uniform_random_number_eq. unfold draw.
      destruct (bind (umod _ _) _) as [[noise img] | e | u];
        cbn [fst base_of erase_base generator probability values drawn];
        split; try reflexivity; f_equal; lia.
    + cbn [fst base_of erase_base generator probability values drawn].
      split; try reflexivity; f_equal; lia.
  - unfold FlipOperation_perform. rewrite operate_this_time_fires.
    destruct (fires (flip_base o)); cbn [negb];
      [destruct (String.eqb (type o) HORIZONTAL);
       [| destruct (String.eqb (type o) VERTICAL)] |];
      cbn [fst base_of flip_base generator probability values drawn];
      split; try reflexivity; f_equal; lia.
Qed.

Lemma run_passes_pointer (E : Environment) (operations : list BoxBlurOperation) :
  forall image ptr r,
    run_passes E operations image = Returns (ptr, r) -> ptr = image_ptr.
Proof.
  induction operations as [| o rest IH]; intros image ptr r; cbn [run_passes].
  - intro H. now inversion H.
  - destruct (snd (BoxBlurOperation_perform E o image)) as [[p img] | e | u];
      cbn [bind]; [apply IH | discriminate | discriminate].
Qed.

Lemma bind_pointer {A : Type} (m : outcome A) (f : A -> Image)
    (ptr : pointer) (r : Image) :
  (x <- m ;; Returns (image_ptr, f x)) = Returns (ptr, r) -> ptr = image_ptr.
Proof.
  destruct m as [a | e | u]; cbn [bind]; [| discriminate | discriminate].
  intro H. now inversion H.
Qed.

Lemma CropOperation_perform_pointer
    (E : Environment) (o : CropOperation) (image : Image)
    (ptr : pointer) (r : Image) :
  snd (CropOperation_perform E o image) = Returns (ptr, r) -> ptr = image_ptr.
Proof.
  unfold CropOperation_perform.
  destruct (operate_this_time (crop_base o)) as [[] base]; cbn [negb].
  - destruct (center o); cbn [snd].
    + apply (bind_pointer _ (fun t => t)).
    + intro H. now inversion H.
  - cbn [snd]. intro H. now inversion H.
Qed.

(** X13.  [perform] returns [nullptr] in one case only: a
    [StdoutOperation] whose gate failed, and then the image is untouched.
    Whenever any other call returns, it returns the pointer it was given. *)
Theorem perform_nullptr_only_stdout_skip
    (E : Environment) (op : AnyOperation) (image : Image)
    (ptr : pointer) (r : Image) :
  snd (perform E op image) = Returns (ptr, r) ->
  (ptr = nullptr <->
   exists o, op = Stdout o /\ fires (stdout_base o) = false) /\
  (ptr = nullptr -> r = image).
Proof.
  assert (Hptr : forall (no_stdout : forall o, op <> Stdout o),
             ptr = image_ptr ->
             (ptr = nullptr <->
              exists o, op = Stdout o /\ fires (stdout_base o) = false) /\
             (ptr = nullptr -> r = image)).
  { intros Hno ->. split; [split |]; try discriminate.
    intros (o & Ho & _). now destruct (Hno o). }
  destruct op as [o|o|o|o|o|o|o|o|o|o|o]; cbn [perform];
    try (intro H; apply Hptr; [discriminate |]; revert H).
  - unfold StdoutOperation_perform. rewrite operate_this_time_fires.
    destruct (fires (stdout_base o)) eqn:Hf; cbn [negb snd]; intro H;
      inversion H; subst.
    + split; [split |]; try discriminate.
      intros (o' & Ho & Hf'). inversion Ho; subst. congruence.
    + split; [split |]; try reflexivity.
      intros _. exists o. now split.
  - unfold ResizeOperation_perform.
    destruct (operate_this_time (resize_base o)) as [[] base]; cbn [negb];
      [destruct (uniform_random_number base) |]; cbn [snd]; intro H;
      now inversion H.
  - destruct (CropOperation_perform E o image) as [o' res] eqn:Hp. cbn [snd].
    intro H. apply (CropOperation_perform_pointer E o image ptr r).
    now rewrite Hp.
  - unfold RotateOperation_perform.
    destruct (operate_this_time (rotate_base o)) as [[] base]; cbn [negb].
    + destruct (uniform_random_number_between _ _ _) as [degree base'].
      cbn [snd]. apply (bind_pointer _ (fun t => t)).
    + cbn [snd]. intro H. now inversion H.
  - unfold ZoomOperation_perform.
    destruct (operate_this_time (zoom_base o)) as [[] base]; cbn [negb].
    + destruct (uniform_random_number_between _ _ _) as [level base'].
      cbn [snd]. apply CropOperation_perform_pointer.
    + cbn [snd]. intro H. now inversion H.
  - unfold InvertOperation_perform.
    destruct (operate_this_time (invert_base o)) as [[] base]; cbn [negb snd].
    + apply (bind_pointer _ (fun t => t)).
    + intro H. now inversion H.
  - unfold GaussianBlurOperation_perform.
    destruct (operate_this_time (gaussian_base o)) as [[] base]; cbn [negb snd].
    + destruct (for_ _ _ _ _) as [t | e | u]; cbn [bind]; try discriminate.
      apply (bind_pointer _ (fun t => t)).
    + intro H. now inversion H.
  - unfold BoxBlurOperation_perform.
    destruct (operate_this_time (box_base o)) as [[] base]; cbn [negb snd].
    + apply (bind_pointer _ (fun t => t)).
    + intro H. now inversion H.
  - unfold FastGaussianBlurOperation_perform.
    destruct (operate_this_time (fast_base o)) as [[] base]; cbn [negb snd].
    + apply run_passes_pointer.
    + intro H. now inversion H.
  - unfold RandomEraseOperation_perform.
    destruct (operate_this_time (erase_base o)) as [[] base]; cbn [negb].
    + destruct (uniform_random_number base) as [f base'].
      destruct (draw (xy_generator o)) as [r_top xy].
      destruct (draw xy) as [r_left xy'].
      destruct (bind (umod _ _) _) as [[noise img] | e | u]; cbn [snd];
        try discriminate.
      intro H. now inversion H.
    + cbn [snd]. intro H. now inversion H.
  - unfold FlipOperation_perform.
    destruct (operate_this_time (flip_base o)) as [[] base]; cbn [negb].
    + destruct (String.eqb (type o) HORIZONTAL); cbn [snd];
        [apply (bind_pointer _ (fun t => t)) |].
      destruct (String.eqb (type o) VERTICAL); cbn [snd];
        [apply (bind_pointer _ (fun t => t)) | discriminate].
    + cbn [snd]. intro H. now inversion H.
Qed.

Lemma perform_nullptr_only_stdout_skip_witness :
  exists o,
    Stdout (mkStdout (always (1 # 4)) EmptyString) = Stdout o /\
    fires (stdout_base o) = false.
Proof.
  exact (proj1 (proj1 (perform_nullptr_only_stdout_skip sample_environment
                         (Stdout (mkStdout (always (1 # 4)) EmptyString))
                         image_2x2 nullptr image_2x2 eq_refl))
           eq_refl).
Defined.

(** ** The generators and the reach of a random erase *)

Lemma RandomEraseOperation_perform_fires
    (op : RandomEraseOperation) (image : Image) :
  fires (erase_base op) = true ->
  (0 <= erase_factor op < 1)%Q ->
  0 <= height (lower_mask_size op) <= height (upper_mask_size op) ->
  0 <= width (lower_mask_size op) <= width (upper_mask_size op) ->
  0 <= getWidth image < 2 ^ 63 -> 0 <= getHeight image < 2 ^ 63 ->
  0 <= getPixelSize image ->
  let size := erase_size op image in
  let left := values (xy_generator op) (S (drawn (xy_generator op)))
              mod (getWidth image - width size + 1) in
  let top := values (xy_generator op) (drawn (xy_generator op))
             mod (getHeight image - height size + 1) in
  exists base result,
    RandomEraseOperation_perform op image =
    (mkRandomErase base
       (mkGenerator (values (xy_generator op)) (S (S (drawn (xy_generator op)))))
       (mkGenerator (values (noise_generator op))
          (drawn (noise_generator op)
           + Z.to_nat (width size * height size * getPixelSize image)))
       (lower_mask_size op) (upper_mask_size op),
     Returns (image_ptr, result)) /\
    same_shape result image /\
    forall x y,
      pixelAt result x y =
      if inside left top size x y
      then noise_at (noise_generator op) (getPixelSize image) left top size x y
      else pixelAt image x y.
Proof.
  intros Hf Hfac Hh Hw HW HH Hps size left top.
  subst size left top. unfold erase_size.
  destruct (erase_size_of_bounds image (lower_mask_size op) (upper_mask_size op)
              (erase_factor op) Hfac Hh Hw HW HH) as (Eh & Ew & Bh & Bw).
  apply fires_true in Hf.
  unfold RandomEraseOperation_perform. rewrite Hf. cbn [negb].
  rewrite uniform_random_number_eq. fold (erase_factor op).
  unfold draw. cbn [values drawn]. unfold umod.
  set (size := erase_size_of image (lower_mask_size op) (upper_mask_size op)
                 (erase_factor op)) in *.
  set (r_top := values (xy_generator op) (drawn (xy_generator op))).
  set (r_left := values (xy_generator op) (S (drawn (xy_generator op)))).
  set (H := getHeight image) in *. set (W := getWidth image) in *.
  rewrite (u64_small (H - height size + 1)) by lia.
  rewrite (u64_small (W - width size + 1)) by lia.
  destruct (Z.eqb_spec (H - height size + 1) 0) as [|_]; [lia |].
  destruct (Z.eqb_spec (W - width size + 1) 0) as [|_]; [lia |].
  cbn [bind].
  assert (Htop := Z.mod_pos_bound r_top (H - height size + 1) ltac:(lia)).
  assert (Hleft := Z.mod_pos_bound r_left (W - width size + 1) ltac:(lia)).
  destruct (erase_fill_spec image (noise_generator op)
              (r_left mod (W - width size + 1))
              (r_top mod (H - height size + 1)) size)
    as (noise' & result & Hfill & Hshape & Hnoise & Hpix);
    try (fold H W; lia).
  rewrite Hfill, Hnoise. eexists. exists result.
  split; [reflexivity |]. split; [exact Hshape | exact Hpix].
Qed.

(** X14.  A random erase that fires takes exactly two values from its
    coordinate generator (the top offset first, then the left one) and
    [width * height * pixel_size] values from its noise generator, where
    [width] and [height] are those of the erased rectangle; the sequences of
    both generators and the two mask sizes are unchanged. *)
Theorem RandomEraseOperation_draws (op : RandomEraseOperation) (image : Image) :
  fires (erase_base op) = true ->
  (0 <= erase_factor op < 1)%Q ->
  0 <= height (lower_mask_size op) <= height (upper_mask_size op) ->
  0 <= width (lower_mask_size op) <= width (upper_mask_size op) ->
  0 <= getWidth image < 2 ^ 63 -> 0 <= getHeight image < 2 ^ 63 ->
  0 <= getPixelSize image ->
  let op' := fst (RandomEraseOperation_perform op image) in
  let size := erase_size op image in
  xy_generator op' =
    mkGenerator (values (xy_generator op)) (drawn (xy_generator op) + 2) /\
  noise_generator op' =
    mkGenerator (values (noise_generator op))
      (drawn (noise_generator op)
       + Z.to_nat (width size * height size * getPixelSize image)) /\
  lower_mask_size op' = lower_mask_size op /\
  upper_mask_size op' = upper_mask_size op.
Proof.
  intros Hf Hfac Hh Hw HW HH Hps op' size. subst op' size.
  destruct (RandomEraseOperation_perform_fires op image Hf Hfac Hh Hw HW HH Hps)
    as (base & result & Heq & _).
  rewrite Heq. cbn [fst xy_generator noise_generator lower_mask_size
                    upper_mask_size].
  repeat split. f_equal. lia.
Qed.

Lemma RandomEraseOperation_draws_witness :
  drawn (xy_generator (fst (RandomEraseOperation_perform erase_2x2 image_8x8)))
  = 2%nat /\
  drawn (noise_generator (fst (RandomEraseOperation_perform erase_2x2 image_8x8)))
  = 4%nat.
Proof.
  assert (Hfac : (0 <= erase_factor erase_2x2 < 1)%Q)
    by (split; vm_compute; congruence).
  destruct (RandomEraseOperation_draws erase_2x2 image_8x8 eq_refl Hfac)
    as (Hxy & Hnoise & _); try (cbn; lia).
  rewrite Hxy, Hnoise. split; reflexivity.
Defined.

(** X15.  Masks at least as large as the image erase all of it: when the
    lower mask size is not below the image in height and in width, the
    erased rectangle is the whole image with its corner at (0, 0), and every
    pixel of the image is replaced by noise. *)
Theorem RandomEraseOperation_covers_image
    (op : RandomEraseOperation) (image : Image) :
  fires (erase_base op) = true ->
  (0 <= erase_factor op < 1)%Q ->
  getHeight image <= height (lower_mask_size op) <= height (upper_mask_size op) ->
  getWidth image <= width (lower_mask_size op) <= width (upper_mask_size op) ->
  0 <= getWidth image < 2 ^ 63 -> 0 <= getHeight image < 2 ^ 63 ->
  0 <= getPixelSize image ->
  exists result,
    snd (RandomEraseOperation_perform op image) = Returns (image_ptr, result) /\
    same_shape result image /\
    erase_size op image = mkSize (getHeight image) (getWidth image) /\
    forall x y, in_bounds image x y = true ->
      pixelAt result x y =
      noise_at (noise_generator op) (getPixelSize image) 0 0
        (mkSize (getHeight image) (getWidth image)) x y.
Proof.
  intros Hf Hfac Hh Hw HW HH Hps.
  destruct (RandomEraseOperation_perform_fires op image Hf Hfac
              ltac:(lia) ltac:(lia) HW HH Hps)
    as (base & result & Heq & Hshape & Hpix).
  destruct (erase_size_of_bounds image (lower_mask_size op) (upper_mask_size op)
              (erase_factor op) Hfac ltac:(lia) ltac:(lia) HW HH)
    as (_ & _ & Bh & Bw).
  fold (erase_size op image) in Bh, Bw.
  assert (Hsize : erase_size op image = mkSize (getHeight image) (getWidth image)).
  { destruct (erase_size op image) as [eh ew]. cbn [height width] in Bh, Bw.
    f_equal; lia. }
  exists result. rewrite Heq. cbn [snd]. split; [reflexivity |].
  split; [exact Hshape |]. split; [exact Hsize |].
  intros x y Hin. rewrite Hpix. rewrite Hsize. cbn [height width].
  replace (getWidth image - getWidth image + 1) with 1 by lia.
  replace (getHeight image - getHeight image + 1) with 1 by lia.
  rewrite !Z.mod_1_r.
  apply in_bounds_iff in Hin. unfold inside. cbn [height width].
  rewrite (proj2 (Z.leb_le 0 x)), (proj2 (Z.ltb_lt x (0 + getWidth image))),
    (proj2 (Z.leb_le 0 y)), (proj2 (Z.ltb_lt y (0 + getHeight image))) by lia.
  reflexivity.
Qed.

Lemma RandomEraseOperation_covers_image_witness :
  exists result,
    snd (RandomEraseOperation_perform erase_large image_2x2)
    = Returns (image_ptr, result) /\
    pixelAt result 0 0 = [200] /\ pixelAt result 0 1 = [201] /\
    pixelAt result 1 0 = [202] /\ pixelAt result 1 1 = [203].
Proof.
  assert (Hfac : (0 <= erase_factor erase_large < 1)%Q)
    by (split; vm_compute; congruence).
  destruct (RandomEraseOperation_covers_image erase_large image_2x2 eq_refl Hfac)
    as (result & Hr & _ & _ & Hpix); try (cbn; lia).
  exists result. split; [exact Hr |].
  rewrite !Hpix by reflexivity. repeat split.
Defined.

(** ** What a Gaussian blur returns *)









(** ** Rotation by any angle *)

(** X18.  A rotation that fires, at whatever angle it draws: the result has
    the dimensions of the source and the pixel size and colour space of the
    two-argument constructor; each of its pixels is the source pixel at the
    rounded source coordinate when that coordinate lies inside the image,
    and an unset pixel otherwise (no wrapping, no clamping); no pixel
    outside the source is read. *)
Theorem RotateOperation_copies_or_leaves_unset
    (E : Environment) (op : RotateOperation) (image : Image) :
  fires (rotate_base op) = true ->
  0 <= getWidth image < 2 ^ 31 -> 0 <= getHeight image < 2 ^ 31 ->
  exists r,
    snd (RotateOperation_perform E op image) = Returns (image_ptr, r) /\
    getWidth r = getWidth image /\ getHeight r = getHeight image /\
    getPixelSize r = default_pixel_size E /\
    getColorSpace r = default_color_space E /\
    forall x y, in_bounds image x y = true ->
      (in_bounds image (fst (source_of E op image x y))
         (snd (source_of E op image x y)) = true ->
       pixelAt r x y =
       pixelAt image (fst (source_of E op image x y))
         (snd (source_of E op image x y))) /\
      (in_bounds image (fst (source_of E op image x y))
         (snd (source_of E op image x y)) = false ->
       pixelAt r x y = unset_pixel E (default_pixel_size E)).
Proof.
  intros Hf HW HH. apply fires_true in Hf.
  unfold RotateOperation_perform, source_of, drawn_degree. rewrite Hf.
  cbn [negb].
  destruct (uniform_random_number_between _ _ _) as [degree base].
  cbn [snd fst].
  rewrite !s32_small by lia. rewrite !u64_small by lia.
  destruct (rotate_copy_spec E image
              (Image2 E (getWidth image) (getHeight image))
              (degree * PI / (180 # 1))%Q eq_refl eq_refl)
    as (r & Hr & (Hw & Hh & Hp & Hc) & Hpix).
  exists r. rewrite Hr. cbn [bind]. split; [reflexivity |].
  repeat (split; [assumption |]).
  intros x y Hin. rewrite Hpix, Hin. cbv zeta.
  split; intros ->; reflexivity.
Qed.

Lemma RotateOperation_copies_or_leaves_unset_witness :
  exists r,
    snd (RotateOperation_perform sample_environment
           (mkRotate (always 1) (mkRotateRange 0 180)) image_2x2)
    = Returns (image_ptr, r) /\
    getWidth r = 2 /\ getHeight r = 2.
Proof.
  destruct (RotateOperation_copies_or_leaves_unset sample_environment
              (mkRotate (always 1) (mkRotateRange 0 180)) image_2x2 eq_refl)
    as (r & Hr & Hw & Hh & _); try (cbn; lia).
  exists r. split; [exact Hr |]. split; [exact Hw | exact Hh].
Defined.

(** ** Images without pixels *)

Lemma getPixel_no_width (img : Image) (x y : Z) :
  getWidth img = 0 -> getPixel img x y = Undefined out_of_bounds_access.
Proof.
  intro H. unfold getPixel, in_bounds. rewrite H.
  destruct (Z.leb_spec 0 x), (Z.ltb_spec x 0); cbn; try reflexivity; lia.
Qed.

Lemma getPixel_no_height (img : Image) (x y : Z) :
  getHeight img = 0 -> getPixel img x y = Undefined out_of_bounds_access.
Proof.
  intro H. unfold getPixel, in_bounds. rewrite H.
  destruct (Z.leb_spec 0 y), (Z.ltb_spec y 0); rewrite ?andb_false_r;
    cbn; try reflexivity; lia.
Qed.

Lemma box_line_unreadable (len n ps : Z)
    (get : Z -> outcome pixel) (set : Image -> Z -> pixel -> outcome Image)
    (dst : Image) :
  1 <= len ->
  (forall t, get t = Undefined out_of_bounds_access) ->
  box_line len n get set ps dst = Undefined out_of_bounds_access.
Proof.
  intros Hlen Hget. unfold box_line.
  rewrite for_unfold by lia. now rewrite Hget.
Qed.

(** X19.  A box blur, of any length from 1 on, of an image without pixels:
    the image with no column and no row is returned as it is; an image with
    rows but no column, or with columns but no row, makes the first tap read
    outside the image, [dimension - 1] having wrapped around. *)
Theorem BoxBlurOperation_image_without_pixels
    (E : Environment) (op : BoxBlurOperation) (image : Image) :
  fires (box_base op) = true ->
  1 <= filter_length op ->
  (getWidth image = 0 /\ getHeight image = 0 \/
   getWidth image = 0 /\ 1 <= getHeight image \/
   1 <= getWidth image /\ getHeight image = 0) ->
  snd (BoxBlurOperation_perform E op image) =
  if (getWidth image =? 0) && (getHeight image =? 0)
  then Returns (image_ptr, image)
  else Undefined out_of_bounds_access.
Proof.
  intros Hf Hlen Hdims. apply fires_true in Hf.
  unfold BoxBlurOperation_perform. rewrite Hf. cbn [negb snd]. unfold box_blur.
  destruct Hdims as [[HW HH] | [[HW HH] | [HW HH]]].
  - rewrite HW, HH. rewrite !for_empty by lia. reflexivity.
  - rewrite HW. rewrite (for_empty 0 0) by lia. cbn [bind].
    rewrite for_unfold by lia.
    rewrite box_line_unreadable; [| lia |].
    + destruct (Z.eqb_spec (getHeight image) 0); [lia | reflexivity].
    + intro t. now apply getPixel_no_width.
  - rewrite for_unfold by lia.
    rewrite box_line_unreadable; [| lia |].
    + destruct (Z.eqb_spec (getWidth image) 0); [lia | reflexivity].
    + intro t. now apply getPixel_no_height.
Qed.

Lemma BoxBlurOperation_image_without_pixels_witness :
  snd (BoxBlurOperation_perform sample_environment box_3
         (gray_image 0 3 []))
  = Undefined out_of_bounds_access.
Proof.
  apply (BoxBlurOperation_image_without_pixels sample_environment box_3
           (gray_image 0 3 [])); [reflexivity | cbn; lia |].
  right. left. cbn. lia.
Defined.

(** ** Zooming in *)





(** ** A centred crop to a larger size *)

Lemma u64_negative (z : Z) : - 2 ^ 64 <= z < 0 -> u64 z = z + 2 ^ 64.
Proof.
  intro H. unfold u64. symmetry.
  apply (Z.mod_unique _ _ (-1)); lia.
Qed.

(** X21.  A centred crop to a target larger than the image is not
    refused.  When half the target width exceeds half the image width, or
    half the target height half the image height, the offset wraps around
    as an unsigned number, the copy loops on that axis end at once, no
    pixel is copied, and the image becomes the blank image of the target
    dimensions. *)
Theorem CropOperation_center_too_large_blank
    (E : Environment) (op : CropOperation) (image : Image) :
  fires (crop_base op) = true ->
  center op = true ->
  0 <= getWidth image < 2 ^ 31 -> 0 <= getHeight image < 2 ^ 31 ->
  0 <= width (crop_size op) < 2 ^ 63 -> 0 <= height (crop_size op) < 2 ^ 63 ->
  getWidth image / 2 < width (crop_size op) / 2 \/
  getHeight image / 2 < height (crop_size op) / 2 ->
  snd (CropOperation_perform E op image) =
  Returns (image_ptr, Image2 E (width (crop_size op)) (height (crop_size op))).
Proof.
  intros Hf Hc HW HH Hsw Hsh Hlarge. apply fires_true in Hf.
  unfold CropOperation_perform. rewrite Hf, Hc. cbn [negb snd].
  set (size := crop_size op) in *.
  set (W := getWidth image) in *. set (H := getHeight image) in *.
  set (temp := Image2 E (width size) (height size)).
  rewrite !s32_small by lia. rewrite !Z.quot_div_nonneg by lia.
  assert (HW2 : 0 <= W / 2 < 2 ^ 31)
    by (split; [apply Z.div_pos; lia | apply Z.div_lt_upper_bound; lia]).
  assert (HH2 : 0 <= H / 2 < 2 ^ 31)
    by (split; [apply Z.div_pos; lia | apply Z.div_lt_upper_bound; lia]).
  assert (Hsw2 : 0 <= width size / 2 <= width size)
    by (split; [apply Z.div_pos; lia | apply Z.div_le_upper_bound; lia]).
  assert (Hsh2 : 0 <= height size / 2 <= height size)
    by (split; [apply Z.div_pos; lia | apply Z.div_le_upper_bound; lia]).
  rewrite (u64_small (W / 2)), (u64_small (H / 2)) by lia.
  unfold crop_copy.
  destruct (Z_lt_ge_dec (H / 2) (height size / 2)) as [Hh | Hh].
  - (* the loops over the rows are empty *)
    rewrite (u64_negative (H / 2 - height size / 2)) by lia.
    loop_with (fun (_ : Z) (st : Image * Z) => fst st = temp) r Hr HI.
    + reflexivity.
    + intros i [t i1] _ Ht. cbn [fst] in Ht. subst t.
      rewrite for_empty.
      * cbn [bind]. eexists. split; reflexivity.
      * unfold u64 at 1.
        replace (H / 2 - height size / 2 + 2 ^ 64 + height size)
          with (H / 2 - height size / 2 + height size + 1 * 2 ^ 64) by ring.
        rewrite Z.mod_add by lia. rewrite Z.mod_small by lia. lia.
    + destruct r as [t i1]. cbn [fst] in HI. subst t. reflexivity.
  - (* the loop over the columns is empty *)
    assert (Hw : W / 2 < width size / 2) by (destruct Hlarge; lia).
    rewrite (u64_negative (W / 2 - width size / 2)) by lia.
    rewrite for_empty; [reflexivity |].
    unfold u64 at 1.
    replace (W / 2 - width size / 2 + 2 ^ 64 + width size)
      with (W / 2 - width size / 2 + width size + 1 * 2 ^ 64) by ring.
    rewrite Z.mod_add by lia. rewrite Z.mod_small by lia. lia.
Qed.

Lemma CropOperation_center_too_large_blank_witness :
  snd (CropOperation_perform sample_environment
         (mkCrop (always 1) (mkSize 2 7) true) image_2x2)
  = Returns (image_ptr, Image2 sample_environment 7 2).
Proof.
  apply (CropOperation_center_too_large_blank sample_environment
           (mkCrop (always 1) (mkSize 2 7) true) image_2x2);
    try reflexivity; cbn; lia.
Defined.

(** ** A Gaussian blur without weights *)

Lemma gaussian_taps_empty_kernel (image : Image) (along_width : bool) (i j : Z) :
  gaussian_taps image [] along_width i j =
  Returns (repeat 0%Q (Z.to_nat (getPixelSize image))).
Proof. reflexivity. Qed.

Lemma convert2pixel_zero (n : nat) : convert2pixel (repeat 0%Q n) = repeat 0 n.
Proof.
  induction n as [| n IH]; [reflexivity |].
  unfold convert2pixel in *. cbn [repeat map]. now rewrite IH.
Qed.

(** X22.  A Gaussian blur whose kernel has no weight is not rejected: when
    it fires, every pixel of the image becomes the vector of [pixel_size]
    zeros, whatever the image held; the dimensions are kept. *)
Theorem GaussianBlurOperation_empty_kernel_zeroes
    (E : Environment) (op : GaussianBlurOperation) (image : Image) :
  fires (gaussian_base op) = true ->
  gaussian_filter op = [] ->
  exists r,
    snd (GaussianBlurOperation_perform E op image) = Returns (image_ptr, r) /\
    same_shape r image /\
    forall x y, in_bounds image x y = true ->
                pixelAt r x y = zero_pixel (getPixelSize image).
Proof.
  intros Hf Hk. apply fires_true in Hf.
  unfold GaussianBlurOperation_perform. rewrite Hf, Hk. cbn [negb snd].
  set (W := getWidth image). set (H := getHeight image).
  set (ps := getPixelSize image).
  loop_with (fun (i : Z) t => same_shape t image) transient Ht HIt.
  - repeat split.
  - intros i t Hi Hs.
    loop_with (fun (j : Z) t' => same_shape t' image) t2 Ht2 HIt2.
    + exact Hs.
    + intros j t' Hj Hs'. rewrite gaussian_taps_empty_kernel. cbn [bind].
      destruct (setPixel_shape t' i j
                  (convert2pixel (repeat 0%Q (Z.to_nat (getPixelSize image)))))
        as (t3 & Hset & Hs3 & _).
      { replace (getWidth t') with W by (symmetry; apply Hs'). lia. }
      { replace (getHeight t') with H by (symmetry; apply Hs'). lia. }
      exists t3. split; [exact Hset |]. unfold same_shape in *. intuition congruence.
    + exists t2. split; [reflexivity | exact HIt2].
  - cbn [bind].
    loop_with
      (fun (i : Z) s =>
         same_shape s image /\
         forall x y, 0 <= x < i -> 0 <= y < H -> pixelAt s x y = zero_pixel ps)
      r Hr HIr.
    + split; [apply same_shape_refl |]. intros x y Hx. lia.
    + intros i s Hi (Hs & Hzero).
      assert (HHs : getHeight s = H) by apply Hs.
      rewrite HHs.
      loop_with
        (fun (j : Z) s' =>
           same_shape s' image /\
           forall x y, (0 <= x < i /\ 0 <= y < H) \/ (x = i /\ 0 <= y < j) ->
                       pixelAt s' x y = zero_pixel ps)
        s2 Hs2 HIs2.
      * split; [exact Hs |]. intros x y [[Hx Hy] | [Hx Hy]]; [| lia].
        now apply Hzero.
      * intros j s' Hj (Hs' & Hzero').
        assert (HW' : getWidth s' = W) by apply Hs'.
        assert (HH' : getHeight s' = H) by apply Hs'.
        assert (Hps' : getPixelSize s' = ps) by apply Hs'.
        rewrite gaussian_taps_empty_kernel, Hps'. cbn [bind].
        rewrite convert2pixel_zero.
        destruct (setPixel_shape s' i j (repeat 0 (Z.to_nat ps)))
          as (s3 & Hset & Hs3 & Hpix3); try lia.
        exists s3. split; [exact Hset |]. split.
        -- unfold same_shape in *. intuition congruence.
        -- intros x y Hxy. rewrite Hpix3.
           destruct (Z.eqb_spec x i) as [-> |]; cbn [andb].
           ++ destruct (Z.eqb_spec y j) as [-> |]; [reflexivity |].
              apply Hzero'. lia.
           ++ apply Hzero'. lia.
      * exists s2. split; [reflexivity |]. destruct HIs2 as (Hs2' & Hzero2).
        split; [exact Hs2' |]. intros x y Hx Hy.
        apply Hzero2. lia.
    + cbn [bind]. destruct HIr as (Hrs & Hzero).
      exists r. split; [reflexivity |]. split; [exact Hrs |].
      intros x y Hin. apply in_bounds_iff in Hin. fold W H in Hin.
      apply Hzero; lia.
Qed.

Lemma GaussianBlurOperation_empty_kernel_zeroes_witness :
  exists r,
    snd (GaussianBlurOperation_perform sample_environment
           (mkGaussianBlur (always 1) []) image_2x2)
    = Returns (image_ptr, r) /\
    pixelAt r 0 0 = [0] /\ pixelAt r 1 1 = [0].
Proof.
  destruct (GaussianBlurOperation_empty_kernel_zeroes sample_environment
              (mkGaussianBlur (always 1) []) image_2x2 eq_refl eq_refl)
    as (r & Hr & _ & Hpix).
  exists r. split; [exact Hr |]. rewrite !Hpix by reflexivity. split; reflexivity.
Defined.
